(** * xheap: an array-backed binary heap with an item -> position index

    Shallow embedding of [heap.py] (class [Heap], a subclass of Python's
    [list] carrying a comparison [cmp] and a dictionary [_indexes]).

    The class delegates its repairs to the routines [_siftdown], [_siftup]
    and [heapify] of the standard module [heapq], which compare items with
    the built-in [<], written [lt] below.  [heapq._siftdown] and
    [heapq._siftup] are the Python functions of Lib/heapq.py: they read and
    write the heap through [heap[i]] and [heap[i] = v], so each of their
    writes goes through [Heap.__setitem__].  [heapq.heapify] is the C
    routine of [_heapq], which Lib/heapq.py imports over its own Python
    text: it arranges the list in the same way but writes the slots
    directly, without calling [Heap.__setitem__].

    Positions are natural numbers.  A Python exception is an outcome
    [Raise e] returned together with the state the heap was left in. *)

From stdpp Require Import gmap list sorting.

(** ** Exceptions and outcomes *)

Inductive exn : Type :=
| IndexError      (* list index out of range, pop from empty list *)
| KeyError        (* dict.pop of a missing key *)
| RuntimeError    (* 'same item not allowed to be inserted twice.' *)
| InvariantError. (* the Exception raised by check_invariant *)

Inductive outcome (A : Type) : Type :=
| Return (a : A)
| Raise (e : exn).
Arguments Return {A} a.
Arguments Raise {A} e.

(** ** Relations on integer items, used for the concrete heaps below *)

(** The default relation, [lambda x, y: x <= y]. *)
Definition le_cmp (x y : Z) : bool := (x <=? y)%Z.

(** A max-heap relation, [lambda x, y: x >= y]. *)
Definition ge_cmp (x y : Z) : bool := (x >=? y)%Z.

(** A relation with ties, [lambda x, y: x // 2 <= y // 2]. *)
Definition half_cmp (x y : Z) : bool := (x / 2 <=? y / 2)%Z.

Section XHeap.

Context {Item : Type} `{Countable Item}.

(** The built-in comparison [x < y] of the items, the one [heapq] uses. *)
Variable lt : Item → Item → bool.

(** ** The heap object: the list itself, [self.cmp] and [self._indexes] *)

Record Heap : Type := mkHeap {
  elems : list Item;
  cmp : Item → Item → bool;
  _indexes : gmap Item nat
}.

(** ** A state and exception monad over the heap object *)

Definition M (A : Type) : Type := Heap → outcome A * Heap.

Definition ret {A} (a : A) : M A := λ h, (Return a, h).

Definition raise {A} (e : exn) : M A := λ h, (Raise e, h).

Definition bind {A B} (m : M A) (f : A → M B) : M B :=
  λ h, match m h with
       | (Return a, h') => f a h'
       | (Raise e, h') => (Raise e, h')
       end.

Notation "'let!' x ':=' m 'in' k" := (bind m (λ x, k))
  (at level 10, x name, m at level 100, k at level 200).
Notation "m ';;' k" := (bind m (λ _, k))
  (at level 100, k at level 200, right associativity).

(** ** The list primitives the class inherits or overrides *)

(** [len(self)] *)
Definition len : M nat := λ h, (Return (length (elems h)), h).

(** [self[i]], the inherited [list.__getitem__] *)
Definition __getitem__ (i : nat) : M Item :=
  λ h, match elems h !! i with
       | Some x => (Return x, h)
       | None => (Raise IndexError, h)
       end.

(** [Heap.__setitem__]: the index is written first, then the slot. *)
Definition __setitem__ (key : nat) (value : Item) : M unit :=
  λ h, let ix := <[value := key]> (_indexes h) in
       if key <? length (elems h)
       then (Return tt, mkHeap (<[key := value]> (elems h)) (cmp h) ix)
       else (Raise IndexError, mkHeap (elems h) (cmp h) ix).

(** [self.append(item)], the inherited [list.append] *)
Definition append (item : Item) : M unit :=
  λ h, (Return tt, mkHeap (elems h ++ [item]) (cmp h) (_indexes h)).

(** [super(Heap, self).pop()], the inherited [list.pop] *)
Definition list_pop : M Item :=
  λ h, match last (elems h) with
       | Some x => (Return x, mkHeap (removelast (elems h)) (cmp h) (_indexes h))
       | None => (Raise IndexError, h)
       end.

(** [self.cmp(x, y)] *)
Definition call_cmp (x y : Item) : M bool := λ h, (Return (cmp h x y), h).

(** [self._indexes.pop(item)] *)
Definition indexes_pop (item : Item) : M nat :=
  λ h, match _indexes h !! item with
       | Some i => (Return i, mkHeap (elems h) (cmp h) (delete item (_indexes h)))
       | None => (Raise KeyError, h)
       end.

(** [item in self._indexes] *)
Definition indexes_mem (item : Item) : M bool :=
  λ h, (Return (bool_decide (is_Some (_indexes h !! item))), h).

(** ** heapq._siftdown, heapq._siftup, heapq.heapify *)

(** The [while pos > startpos] loop of [_siftdown]; it returns the final
    [pos].  [pos] decreases at each turn, so [pos] turns are enough, and
    when the counter is [0] so is [pos] and the loop is over. *)
Fixpoint _siftdown_loop (n : nat) (newitem : Item) (startpos pos : nat) : M nat :=
  match n with
  | 0 => ret pos
  | S n' =>
      if startpos <? pos then
        let parentpos := Nat.shiftr (pos - 1) 1 in
        let! parent := __getitem__ parentpos in
        if lt newitem parent then
          __setitem__ pos parent;;
          _siftdown_loop n' newitem startpos parentpos
        else ret pos
      else ret pos
  end.

Definition _siftdown (startpos pos : nat) : M unit :=
  let! newitem := __getitem__ pos in
  let! pos' := _siftdown_loop pos newitem startpos pos in
  __setitem__ pos' newitem.

(** "Set childpos to index of smaller child":
    [if rightpos < endpos and not heap[childpos] < heap[rightpos]:
       childpos = rightpos] *)
Definition smaller_child (endpos childpos : nat) : M nat :=
  let rightpos := childpos + 1 in
  if rightpos <? endpos then
    let! l := __getitem__ childpos in
    let! r := __getitem__ rightpos in
    ret (if negb (lt l r) then rightpos else childpos)
  else ret childpos.

(** The [while childpos < endpos] loop of [_siftup]; it returns the final
    [pos].  [childpos] grows at each turn, so [endpos] turns are enough. *)
Fixpoint _siftup_loop (n : nat) (endpos pos childpos : nat) : M nat :=
  match n with
  | 0 => ret pos
  | S n' =>
      if childpos <? endpos then
        let! smaller := smaller_child endpos childpos in
        let! c := __getitem__ smaller in
        __setitem__ pos c;;
        _siftup_loop n' endpos smaller (2 * smaller + 1)
      else ret pos
  end.

Definition _siftup (pos : nat) : M unit :=
  let! endpos := len in
  let startpos := pos in
  let! newitem := __getitem__ pos in
  let! pos' := _siftup_loop endpos endpos pos (2 * pos + 1) in
  __setitem__ pos' newitem;;
  _siftdown startpos pos'.

(** [for i in reversed(range(k)): _siftup(x, i)] *)
Fixpoint heapify_loop (k : nat) : M unit :=
  match k with
  | 0 => ret tt
  | S i => _siftup i;; heapify_loop i
  end.

(** [heapq.heapify(x)], the C routine: it makes the comparisons and the
    moves of [n = len(x)] followed by the loop above with [k = n//2], on
    the slots of the list themselves.  The list is left as the loop leaves
    it; [Heap.__setitem__] is never called, so the dictionary is left as it
    was. *)
Definition heapq_heapify : M unit :=
  λ h, let r := (let! n := len in heapify_loop (n / 2)) h in
       (r.1, mkHeap (elems r.2) (cmp r.2) (_indexes h)).

(** ** The methods of [Heap] *)

(** [{value: index for index, value in enumerate(self)}]: a later position
    of an equal value overwrites an earlier one. *)
Fixpoint enumerate_indexes (index : nat) (l : list Item) (m : gmap Item nat)
  : gmap Item nat :=
  match l with
  | [] => m
  | value :: l' => enumerate_indexes (S index) l' (<[value := index]> m)
  end.

Definition heapify : M unit :=
  (λ h, (Return tt, mkHeap (elems h) (cmp h) (enumerate_indexes 0 (elems h) ∅)));;
  heapq_heapify.

(** [Heap(iterable, cmp)]: the outcome of [__init__] and the object built. *)
Definition __init__ (iterable : list Item) (c : Item → Item → bool)
  : outcome unit * Heap :=
  heapify (mkHeap iterable c ∅).

Definition new_heap (iterable : list Item) (c : Item → Item → bool) : Heap :=
  (__init__ iterable c).2.

Definition push (item : Item) : M unit :=
  let! dup := indexes_mem item in
  if dup then raise RuntimeError
  else
    append item;;
    let! n := len in
    _siftdown 0 (n - 1).

Definition pop (index : nat) : M Item :=
  let! lastelt := list_pop in
  let! n := len in
  if index =? n then ret lastelt
  else
    let! returnitem := __getitem__ index in
    __setitem__ index lastelt;;
    let! down :=
      (if index =? 0 then ret true
       else let! p := __getitem__ (Nat.shiftr (index - 1) 2) in
            call_cmp p lastelt) in
    (if down then _siftup index else _siftdown 0 index);;
    ret returnitem.

Definition remove (item : Item) : M Item :=
  let! index := indexes_pop item in pop index.

Definition replace (item : Item) : M Item :=
  let! returnitem := __getitem__ 0 in
  __setitem__ 0 item;;
  _siftup 0;;
  ret returnitem.

Definition pushpop (item : Item) : M Item :=
  let! n := len in
  if n =? 0 then ret item
  else
    let! top := __getitem__ 0 in
    let! swap := call_cmp top item in
    if swap then
      __setitem__ 0 item;;
      _siftup 0;;
      ret top
    else ret item.

(** [for index in range(len(self)-1, 0, -1)] of [check_invariant] *)
Fixpoint check_loop (index : nat) : M unit :=
  match index with
  | 0 => ret tt
  | S i =>
      let parent_index := Nat.shiftr (index - 1) 1 in
      let! p := __getitem__ parent_index in
      let! x := __getitem__ index in
      let! ok := call_cmp p x in
      if ok then check_loop i else raise InvariantError
  end.

Definition check_invariant : M unit :=
  let! n := len in check_loop (n - 1).

(** ** Notions used to state the properties *)

(** The state after [self[key] = value] for a [key] in range. *)
Definition set_slot (key : nat) (value : Item) (h : Heap) : Heap :=
  mkHeap (<[key := value]> (elems h)) (cmp h) (<[value := key]> (_indexes h)).

(** [h'] has as many slots as [h] and the same relation. *)
Definition same_shape (h h' : Heap) : Prop :=
  length (elems h') = length (elems h) ∧ cmp h' = cmp h.

(** The heap invariant up to slot [n]: every slot [k] with [0 < k <= n]
    holds an item that its parent slot [(k-1) >> 1] precedes under [cmp]. *)
Definition ordered_upto (n : nat) (h : Heap) : Prop :=
  ∀ k x, 0 < k ≤ n → elems h !! k = Some x →
    ∃ p, elems h !! Nat.shiftr (k - 1) 1 = Some p ∧ cmp h p x = true.

(** The heap invariant. *)
Definition heap_ordered (h : Heap) : Prop :=
  ∀ k x, 0 < k → elems h !! k = Some x →
    ∃ p, elems h !! Nat.shiftr (k - 1) 1 = Some p ∧ cmp h p x = true.

(** [synced h]: the dictionary sends every item of the list to the slot it
    sits in.  No two slots of a synced heap hold the same item. *)
Definition synced (h : Heap) : Prop :=
  ∀ i x, elems h !! i = Some x → _indexes h !! x = Some i.

(** The same with slot [pos] free and [v] in hand. *)
Definition hole_synced (v : Item) (pos : nat) (h : Heap) : Prop :=
  ∀ i y, i ≠ pos → elems h !! i = Some y → _indexes h !! y = Some i ∧ y ≠ v.

(** ** Calls *)

Inductive call : Type :=
| Push (item : Item)
| Pop (index : nat)
| Remove (item : Item)
| Replace (item : Item)
| Pushpop (item : Item).

(** The heap a call leaves behind, whether it returned or raised. *)
Definition exec (k : call) (h : Heap) : Heap :=
  match k with
  | Push item => (push item h).2
  | Pop index => (pop index h).2
  | Remove item => (remove item h).2
  | Replace item => (replace item h).2
  | Pushpop item => (pushpop item h).2
  end.

(** [replace] and [pushpop] do not look the new item up before they write
    it at the top: the item is [fresh] when no slot below the top holds it. *)
Definition fresh (k : call) (h : Heap) : Prop :=
  match k with
  | Replace item | Pushpop item => item ∉ tail (elems h)
  | _ => True
  end.

(** ** Slice assignment and the extraction loop *)

(** [Heap.__setslice__(i, j, sequence)], that is [heap[i:j] = sequence] for
    plain bounds: the inherited [list.__setslice__] puts [sequence] in place
    of the slots from [i] up to [j] (none when [j <= i]; bounds beyond the
    end stop at the end), then the index is rebuilt from the new list. *)
Definition __setslice__ (i j : nat) (sequence : list Item) : M unit :=
  λ h, let l := take i (elems h) ++ sequence ++ drop (i `max` j) (elems h) in
       (Return tt, mkHeap l (cmp h) (enumerate_indexes 0 l ∅)).

(** The loop that ends the module's sanity test, for up to [n] turns:
    [while heap: heap.check_invariant(); sort.append(heap.pop())]. *)
Fixpoint drain (n : nat) (sort : list Item) : M (list Item) :=
  match n with
  | 0 => ret sort
  | S n' =>
      let! k := len in
      if k =? 0 then ret sort
      else
        check_invariant;;
        let! x := pop 0 in
        drain n' (sort ++ [x])
  end.

(** [sort = []] followed by the loop; each turn takes one item off, so
    [len(heap)] turns are enough. *)
Definition sorted_items : M (list Item) :=
  let! n := len in drain n [].

(** ** The built-in order *)

(** [not y < x], the order in which [heapq] arranges the items. *)
Definition le (x y : Item) : bool := negb (lt y x).

(** The built-in [<] is a strict weak order: it is asymmetric and
    [not y < x] is transitive. *)
Definition weak_order : Prop :=
  (∀ x y, lt x y = true → lt y x = false)
  ∧ (∀ x y z, le x y = true → le y z = true → le x z = true).

(** The relation of the heap is the order [heapq] uses, as the default
    [lambda x, y: x <= y] is for numbers. *)
Definition agrees (h : Heap) : Prop := ∀ x y, cmp h x y = le x y.

(** Every slot whose parent is at [s] or later holds an item that the
    item of its parent precedes under [R]. *)
Definition ordered_from (R : Item → Item → bool) (s : nat) (l : list Item)
  : Prop :=
  ∀ k x p, 0 < k → s ≤ Nat.shiftr (k - 1) 1 →
    l !! k = Some x → l !! Nat.shiftr (k - 1) 1 = Some p → R p x = true.

(** [below s k]: slot [k] is [s] or lies under it in the tree. *)
Inductive below (s : nat) : nat → Prop :=
| below_refl : below s s
| below_child k : 0 < k → below s (Nat.shiftr (k - 1) 1) → below s k.

(** The list is in order from [s] on, slot [pos] being free: the slots
    that are neither [pos] nor a child of [pos] follow their parents, and
    the children of [pos] follow the parent of [pos]. *)
Definition hole_ordered (s pos : nat) (l : list Item) : Prop :=
  (∀ k x p, 0 < k → s ≤ Nat.shiftr (k - 1) 1 → k ≠ pos →
     Nat.shiftr (k - 1) 1 ≠ pos →
     l !! k = Some x → l !! Nat.shiftr (k - 1) 1 = Some p → le p x = true)
  ∧ (∀ k x g, 0 < k → Nat.shiftr (k - 1) 1 = pos → 0 < pos →
       s ≤ Nat.shiftr (pos - 1) 1 →
       l !! k = Some x → l !! Nat.shiftr (pos - 1) 1 = Some g →
       le g x = true).

(** The item [v] in hand precedes the children of the free slot. *)
Definition hole_fits (v : Item) (pos : nat) (l : list Item) : Prop :=
  ∀ k x, 0 < k → Nat.shiftr (k - 1) 1 = pos → l !! k = Some x →
    le v x = true.

(** The index has no key that is not in the list. *)
Definition keys_in_list (h : Heap) : Prop :=
  ∀ x, is_Some (_indexes h !! x) → x ∈ elems h.

(** The free slot [pos] and the index while a repair runs on a heap that
    had the items [L] and the index [ix0]: with [v] back in the slot the
    list is a rearrangement of [L], no key of [ix0] is lost, and the entry
    of an item that is not in [L] is as in [ix0]. *)
Definition hole_index (L : list Item) (ix0 : gmap Item nat) (v : Item)
    (pos : nat) (h : Heap) : Prop :=
  <[pos := v]> (elems h) ≡ₚ L
  ∧ (∀ x, is_Some (ix0 !! x) → is_Some (_indexes h !! x))
  ∧ (∀ x, x ∉ L → _indexes h !! x = ix0 !! x).

(** The index is exact: it sends an item to a slot exactly when the slot
    holds the item. *)
Definition exact (h : Heap) : Prop :=
  ∀ x i, _indexes h !! x = Some i ↔ elems h !! i = Some x.

(** The calls that keep the index exact. *)
Definition push_or_remove (k : call) (h : Heap) : Prop :=
  match k with
  | Push _ | Remove _ => True
  | _ => False
  end.

(** * Properties *)

(** ** Positions *)

Lemma parent_lt (pos : nat) : 0 < pos → Nat.shiftr (pos - 1) 1 < pos.
Proof.
  intros Hp. rewrite Nat.shiftr_div_pow2. change (2 ^ 1) with 2.
  apply Nat.Div0.div_lt_upper_bound. lia.
Qed.

Lemma quarter_lt (pos : nat) : 0 < pos → Nat.shiftr (pos - 1) 2 < pos.
Proof.
  intros Hp. rewrite Nat.shiftr_div_pow2. change (2 ^ 2) with 4.
  apply Nat.Div0.div_lt_upper_bound. lia.
Qed.

(** ** One slot write *)

Lemma setitem_in_range key value h :
  key < length (elems h) →
  __setitem__ key value h = (Return tt, set_slot key value h).
Proof.
  intros Hk. unfold __setitem__, set_slot.
  by destruct (Nat.ltb_spec key (length (elems h))); [|lia].
Qed.

Lemma getitem_Some i x h : elems h !! i = Some x → __getitem__ i h = (Return x, h).
Proof. intros Hx. unfold __getitem__. by rewrite Hx. Qed.

Lemma getitem_in_range i h :
  i < length (elems h) → ∃ x, elems h !! i = Some x ∧ __getitem__ i h = (Return x, h).
Proof.
  intros Hi. destruct (lookup_lt_is_Some_2 _ _ Hi) as [x Hx].
  exists x. split; [done|]. by apply getitem_Some.
Qed.

Lemma length_set_slot key value h :
  length (elems (set_slot key value h)) = length (elems h).
Proof. apply length_insert. Qed.

Lemma getitem_state i (r : outcome Item) h h' :
  __getitem__ i h = (r, h') → h' = h.
Proof. unfold __getitem__. by destruct (elems h !! i); intros [= _ <-]. Qed.

(** The chosen child is [childpos] or its right neighbour, is below
    [endpos] when [childpos] is, and choosing it writes nothing. *)
Lemma smaller_child_Return endpos childpos smaller h h' :
  smaller_child endpos childpos h = (Return smaller, h') →
  h' = h ∧ childpos ≤ smaller ≤ childpos + 1
  ∧ (childpos < endpos → smaller < endpos).
Proof.
  unfold smaller_child, bind, ret.
  destruct (Nat.ltb_spec (childpos + 1) endpos) as [Hr|Hr].
  - destruct (__getitem__ childpos h) as [[l|?] h1] eqn:Hl; [|done].
    apply getitem_state in Hl as ->.
    destruct (__getitem__ (childpos + 1) h) as [[r|?] h2] eqn:Hrr; [|done].
    apply getitem_state in Hrr as ->.
    destruct (negb (lt l r)); intros [= <- <-]; repeat split; lia.
  - intros [= <- <-]. repeat split; lia.
Qed.

Lemma smaller_child_in_range endpos childpos h :
  endpos ≤ length (elems h) →
  ∃ smaller, smaller_child endpos childpos h = (Return smaller, h).
Proof.
  intros Hend. unfold smaller_child, bind, ret.
  destruct (Nat.ltb_spec (childpos + 1) endpos) as [Hr|Hr]; [|eauto].
  destruct (getitem_in_range childpos h) as (l & _ & ->); [lia|].
  destruct (getitem_in_range (childpos + 1) h) as (r & _ & ->); [lia|].
  eauto.
Qed.

(** ** [check_invariant] decides the heap invariant *)

Lemma check_loop_spec n h :
  n ≤ length (elems h) - 1 →
  (check_loop n h = (Return tt, h) ∧ ordered_upto n h)
  ∨ (check_loop n h = (Raise InvariantError, h) ∧ ¬ ordered_upto n h).
Proof.
  induction n as [|n IH]; intros Hn.
  { left. split; [done|]. intros k x Hk. lia. }
  cbn [check_loop]. unfold bind.
  pose proof (parent_lt (S n) ltac:(lia)) as Hpar.
  destruct (getitem_in_range (Nat.shiftr (S n - 1) 1) h) as (p & Hp & ->);
    [lia|].
  destruct (getitem_in_range (S n) h) as (x & Hx & ->); [lia|].
  unfold call_cmp, raise. destruct (cmp h p x) eqn:Hcmp.
  - destruct IH as [[-> Hord]|[-> Hbad]]; [lia|left|right]; (split; [done|]).
    + intros k y Hk Hy. destruct (decide (k = S n)) as [->|Hne].
      * exists p. by simplify_eq.
      * apply Hord; [lia|done].
    + intros Hord. apply Hbad. intros k y Hk. apply Hord. lia.
  - right. split; [done|]. intros Hord.
    destruct (Hord (S n) x) as (p' & Hp' & Hcmp'); [lia|done|].
    congruence.
Qed.

Lemma check_invariant_iff h :
  (check_invariant h).1 = Return tt ↔ heap_ordered h.
Proof.
  unfold check_invariant, bind, len.
  destruct (check_loop_spec (length (elems h) - 1) h) as [[-> Hord]|[-> Hbad]];
    [done| |].
  - split; [|done]. intros _ k x Hk Hx. apply Hord; [|done].
    apply lookup_lt_Some in Hx. lia.
  - split; [done|]. intros Hord. destruct Hbad. intros k x Hk. apply Hord. lia.
Qed.

Lemma raised_not_ordered h :
  (check_invariant h).1 = Raise InvariantError → ¬ heap_ordered h.
Proof. intros Hbad Hord. apply check_invariant_iff in Hord. congruence. Qed.

Lemma check_invariant_state h : (check_invariant h).2 = h.
Proof.
  unfold check_invariant, bind, len.
  by destruct (check_loop_spec (length (elems h) - 1) h) as [[-> _]|[-> _]].
Qed.

(** ** The loop counters are large enough

    One more turn of the counter never changes what a loop computes, so
    the loops stop because their conditions fail, as the [while] loops of
    the source do. *)

Lemma _siftdown_loop_S n newitem startpos pos :
  _siftdown_loop (S n) newitem startpos pos
  = if startpos <? pos then
      let! parent := __getitem__ (Nat.shiftr (pos - 1) 1) in
      if lt newitem parent then
        __setitem__ pos parent;;
        _siftdown_loop n newitem startpos (Nat.shiftr (pos - 1) 1)
      else ret pos
    else ret pos.
Proof. reflexivity. Qed.

Lemma _siftup_loop_S n endpos pos childpos :
  _siftup_loop (S n) endpos pos childpos
  = if childpos <? endpos then
      let! smaller := smaller_child endpos childpos in
      let! c := __getitem__ smaller in
      __setitem__ pos c;;
      _siftup_loop n endpos smaller (2 * smaller + 1)
    else ret pos.
Proof. reflexivity. Qed.

Lemma _siftdown_loop_counter n newitem startpos pos h :
  pos ≤ n →
  _siftdown_loop (S n) newitem startpos pos h
  = _siftdown_loop n newitem startpos pos h.
Proof.
  revert pos h. induction n as [|n IH]; intros pos h Hn.
  - assert (pos = 0) as -> by lia. simpl.
    by destruct (Nat.ltb_spec startpos 0); [lia|].
  - rewrite (_siftdown_loop_S n), (_siftdown_loop_S (S n)).
    destruct (Nat.ltb_spec startpos pos) as [Hlt|]; [|done].
    unfold bind. destruct (__getitem__ _ h) as [[parent|e] h1]; [|done].
    destruct (lt newitem parent); [|done].
    destruct (__setitem__ pos parent h1) as [[[]|e] h2]; [|done].
    apply IH. pose proof (parent_lt pos). lia.
Qed.

Lemma _siftdown_loop_enough n newitem startpos pos h :
  pos ≤ n →
  _siftdown_loop n newitem startpos pos h
  = _siftdown_loop pos newitem startpos pos h.
Proof.
  induction 1 as [|n Hn IH]; [done|].
  by rewrite _siftdown_loop_counter.
Qed.

Lemma _siftup_loop_counter n endpos pos childpos h :
  endpos - childpos ≤ n →
  _siftup_loop (S n) endpos pos childpos h
  = _siftup_loop n endpos pos childpos h.
Proof.
  revert pos childpos h. induction n as [|n IH]; intros pos childpos h Hn.
  - simpl. by destruct (Nat.ltb_spec childpos endpos); [lia|].
  - rewrite (_siftup_loop_S n), (_siftup_loop_S (S n)).
    destruct (Nat.ltb_spec childpos endpos) as [Hlt|]; [|done].
    unfold bind.
    destruct (smaller_child endpos childpos h) as [[smaller|e] h1] eqn:Hs;
      [|done].
    apply smaller_child_Return in Hs as (-> & Hsm & _).
    destruct (__getitem__ smaller h) as [[c|e] h2]; [|done].
    destruct (__setitem__ pos c h2) as [[[]|e] h3]; [|done].
    apply IH. lia.
Qed.

Lemma _siftup_loop_enough n endpos pos childpos h :
  endpos ≤ n →
  _siftup_loop n endpos pos childpos h
  = _siftup_loop endpos endpos pos childpos h.
Proof.
  induction 1 as [|n Hn IH]; [done|].
  rewrite _siftup_loop_counter; [done|lia].
Qed.

(** ** The two repairs, seen as moving a hole

    [_siftdown] and [_siftup] take [newitem] out of its slot, copy
    neighbours into the free slot, and put [newitem] back where the free
    slot ends.  A property [I pos h] of the free slot [pos] that survives
    one copy survives the whole repair, and the repair returns. *)

Lemma same_shape_refl h : same_shape h h.
Proof. done. Qed.

Lemma same_shape_set_slot h h' key value :
  same_shape h h' → same_shape h (set_slot key value h').
Proof. intros [Hl Hc]. split; [by rewrite length_set_slot|done]. Qed.

Section hole.

Variable v : Item.
Variable I : nat → Heap → Prop.

Hypothesis I_move : ∀ pos j y h,
  I pos h → pos < length (elems h) → j ≠ pos → elems h !! j = Some y →
  I j (set_slot pos y h).

Hypothesis I_fill : ∀ pos h,
  I pos h → pos < length (elems h) → I pos (set_slot pos v h).

Lemma _siftdown_loop_hole n newitem startpos pos h :
  I pos h → pos < length (elems h) →
  ∃ pos' h', _siftdown_loop n newitem startpos pos h = (Return pos', h')
    ∧ I pos' h' ∧ pos' < length (elems h') ∧ same_shape h h'.
Proof using I_move.
  revert pos h. induction n as [|n IH]; intros pos h HI Hpos.
  { exists pos, h. by repeat split. }
  rewrite _siftdown_loop_S.
  destruct (Nat.ltb_spec startpos pos) as [Hlt|];
    [|exists pos, h; by repeat split].
  pose proof (parent_lt pos ltac:(lia)) as Hpar.
  destruct (getitem_in_range (Nat.shiftr (pos - 1) 1) h) as (parent & Hp & Hget);
    [lia|].
  unfold bind. rewrite Hget.
  destruct (lt newitem parent); [|exists pos, h; by repeat split].
  rewrite setitem_in_range by done.
  destruct (IH (Nat.shiftr (pos - 1) 1) (set_slot pos parent h))
    as (pos' & h' & -> & HI' & Hpos' & Hl & Hc).
  - apply I_move; [done|done|lia|done].
  - rewrite length_set_slot. lia.
  - exists pos', h'. repeat split; try done.
    by rewrite Hl, length_set_slot.
Qed.

Lemma _siftdown_hole startpos pos h :
  elems h !! pos = Some v → I pos h →
  ∃ pos' h', _siftdown startpos pos h = (Return tt, set_slot pos' v h')
    ∧ I pos' h' ∧ pos' < length (elems h') ∧ same_shape h h'.
Proof using I_move.
  intros Hv HI. unfold _siftdown, bind. rewrite (getitem_Some _ _ _ Hv).
  destruct (_siftdown_loop_hole pos v startpos pos h)
    as (pos' & h' & -> & HI' & Hpos' & Hsh); [done|by eapply lookup_lt_Some|].
  rewrite setitem_in_range by done. by exists pos', h'.
Qed.

Lemma _siftup_loop_hole n endpos pos childpos h :
  I pos h → pos < childpos → pos < length (elems h) →
  endpos ≤ length (elems h) →
  ∃ pos' h', _siftup_loop n endpos pos childpos h = (Return pos', h')
    ∧ I pos' h' ∧ pos' < length (elems h') ∧ same_shape h h'.
Proof using I_move.
  revert pos childpos h.
  induction n as [|n IH]; intros pos childpos h HI Hch Hpos Hend.
  { exists pos, h. by repeat split. }
  rewrite _siftup_loop_S.
  destruct (Nat.ltb_spec childpos endpos) as [Hlt|];
    [|exists pos, h; by repeat split].
  destruct (smaller_child_in_range endpos childpos h Hend) as [smaller Hs].
  unfold bind. rewrite Hs.
  apply smaller_child_Return in Hs as (_ & Hsm & Hse).
  destruct (getitem_in_range smaller h) as (c & Hc & ->); [lia|].
  rewrite setitem_in_range by done.
  destruct (IH smaller (2 * smaller + 1) (set_slot pos c h))
    as (pos' & h' & -> & HI' & Hpos' & Hl & Hcmp).
  - apply I_move; [done|done|lia|done].
  - lia.
  - rewrite length_set_slot. lia.
  - by rewrite length_set_slot.
  - exists pos', h'. repeat split; try done.
    by rewrite Hl, length_set_slot.
Qed.

Lemma _siftup_hole pos h :
  elems h !! pos = Some v → I pos h →
  ∃ pos' h', _siftup pos h = (Return tt, set_slot pos' v h')
    ∧ I pos' h' ∧ pos' < length (elems h') ∧ same_shape h h'.
Proof using I_move I_fill.
  intros Hv HI. pose proof (lookup_lt_Some _ _ _ Hv) as Hpos.
  unfold _siftup, bind, len. rewrite (getitem_Some _ _ _ Hv).
  destruct (_siftup_loop_hole (length (elems h)) (length (elems h)) pos
              (2 * pos + 1) h)
    as (p1 & h1 & -> & HI1 & Hp1 & Hsh1); [done|lia|done|done|].
  rewrite setitem_in_range by done.
  destruct (_siftdown_hole pos p1 (set_slot p1 v h1))
    as (p2 & h2 & -> & HI2 & Hp2 & Hsh2).
  - simpl. by apply list_lookup_insert_eq.
  - by apply I_fill.
  - exists p2, h2. repeat split; try done.
    + destruct Hsh1 as [<- _], Hsh2 as [-> _]. apply length_set_slot.
    + destruct Hsh1 as [_ <-], Hsh2 as [_ ->]. done.
Qed.

End hole.

(** ** The index follows the items *)

Lemma synced_NoDup h : synced h → NoDup (elems h).
Proof.
  intros Hs. apply NoDup_alt. intros i j x Hi Hj.
  apply Hs in Hi, Hj. congruence.
Qed.

Lemma hole_synced_move v pos j y h :
  hole_synced v pos h → pos < length (elems h) → j ≠ pos →
  elems h !! j = Some y → hole_synced v j (set_slot pos y h).
Proof.
  intros Hh Hpos Hj Hy i z Hi. simpl.
  destruct (Hh j y Hj Hy) as [Hjy Hyv].
  destruct (decide (i = pos)) as [->|Hip].
  - rewrite list_lookup_insert_eq by done. intros [= <-].
    by rewrite lookup_insert_eq.
  - rewrite list_lookup_insert_ne by done. intros Hz.
    destruct (Hh i z Hip Hz) as [Hiz Hzv].
    rewrite lookup_insert_ne; [done|]. intros ->. congruence.
Qed.

Lemma hole_synced_fill v pos h :
  hole_synced v pos h → pos < length (elems h) →
  hole_synced v pos (set_slot pos v h).
Proof.
  intros Hh Hpos i z Hi. simpl.
  rewrite list_lookup_insert_ne by done. intros Hz.
  destruct (Hh i z Hi Hz) as [Hiz Hzv].
  by rewrite lookup_insert_ne.
Qed.

Lemma hole_synced_close v pos h :
  hole_synced v pos h → pos < length (elems h) → synced (set_slot pos v h).
Proof.
  intros Hh Hpos i z. simpl.
  destruct (decide (i = pos)) as [->|Hip].
  - rewrite list_lookup_insert_eq by done. intros [= <-].
    by rewrite lookup_insert_eq.
  - rewrite list_lookup_insert_ne by done. intros Hz.
    destruct (Hh i z Hip Hz) as [Hiz Hzv].
    by rewrite lookup_insert_ne.
Qed.

Lemma synced_open v pos h :
  synced h → elems h !! pos = Some v → hole_synced v pos h.
Proof.
  intros Hs Hv i y Hi Hy. split; [by apply Hs|].
  intros ->. apply Hs in Hv, Hy. congruence.
Qed.

Lemma _siftdown_synced startpos pos h :
  synced h → pos < length (elems h) →
  ∃ h', _siftdown startpos pos h = (Return tt, h') ∧ synced h'
        ∧ same_shape h h'.
Proof.
  intros Hs Hpos. destruct (lookup_lt_is_Some_2 _ _ Hpos) as [v Hv].
  destruct (_siftdown_hole v (hole_synced v) (hole_synced_move v)
              startpos pos h Hv)
    as (pos' & h' & -> & Hh & Hpos' & Hsh); [by apply synced_open|].
  eexists. split; [done|]. split; [by apply hole_synced_close|].
  by apply same_shape_set_slot.
Qed.

Lemma _siftup_synced pos h :
  synced h → pos < length (elems h) →
  ∃ h', _siftup pos h = (Return tt, h') ∧ synced h' ∧ same_shape h h'.
Proof.
  intros Hs Hpos. destruct (lookup_lt_is_Some_2 _ _ Hpos) as [v Hv].
  destruct (_siftup_hole v (hole_synced v) (hole_synced_move v)
              (hole_synced_fill v) pos h Hv)
    as (pos' & h' & -> & Hh & Hpos' & Hsh); [by apply synced_open|].
  eexists. split; [done|]. split; [by apply hole_synced_close|].
  by apply same_shape_set_slot.
Qed.

(** *** Construction *)

Lemma enumerate_indexes_other index l m x :
  x ∉ l → enumerate_indexes index l m !! x = m !! x.
Proof.
  revert index m. induction l as [|a l IH]; intros index m Hx; [done|].
  simpl. apply not_elem_of_cons in Hx as [Hxa Hxl].
  rewrite IH by done. by rewrite lookup_insert_ne.
Qed.

Lemma enumerate_indexes_lookup index l m i x :
  NoDup l → l !! i = Some x →
  enumerate_indexes index l m !! x = Some (index + i).
Proof.
  revert index m i. induction l as [|a l IH]; intros index m i Hnd Hi; [done|].
  apply NoDup_cons in Hnd as [Ha Hnd]. simpl. destruct i as [|i]; simpl in Hi.
  - injection Hi as ->. rewrite enumerate_indexes_other by done.
    rewrite lookup_insert_eq. f_equal. lia.
  - rewrite (IH _ _ i) by done. f_equal. lia.
Qed.

(** *** The methods *)

Lemma push_synced item h : synced h → synced (push item h).2.
Proof.
  intros Hs. unfold push, bind, indexes_mem, append, len, raise.
  case_bool_decide as Hdup; [done|]. cbn [elems cmp _indexes].
  apply eq_None_not_Some in Hdup.
  rewrite length_app, Nat.add_sub. cbn [length].
  set (h1 := mkHeap (elems h ++ [item]) (cmp h) (_indexes h)).
  destruct (_siftdown_hole item (hole_synced item) (hole_synced_move item)
              0 (length (elems h)) h1)
    as (pos' & h' & -> & Hh & Hpos' & _).
  - apply list_lookup_middle. done.
  - intros i y Hi Hy. cbn [h1 elems _indexes] in *.
    assert (elems h !! i = Some y) as Hy'.
    { apply lookup_lt_Some in Hy as Hlt. rewrite length_app in Hlt.
      cbn [length] in Hlt. by rewrite lookup_app_l in Hy by lia. }
    split; [by apply Hs|]. intros ->. apply Hs in Hy'. congruence.
  - by apply hole_synced_close.
Qed.

(** [pop] needs the index to be right at every slot but the one it
    vacates; [remove] calls it in such a state, the entry of the removed
    item being deleted already. *)
Lemma pop_synced_but index h :
  (∀ i y, i ≠ index → elems h !! i = Some y → _indexes h !! y = Some i) →
  synced (pop index h).2.
Proof.
  intros Hs. unfold pop, bind, list_pop, len, ret.
  destruct (last (elems h)) as [lastelt|] eqn:Hlast; cycle 1.
  { apply last_None in Hlast. intros i x. cbn [snd]. by rewrite Hlast. }
  apply last_Some in Hlast as [l Hl]. rewrite Hl, removelast_last.
  cbn [elems cmp _indexes].
  set (h1 := mkHeap l (cmp h) (_indexes h)).
  assert (∀ i y, i ≠ index → l !! i = Some y → _indexes h !! y = Some i)
    as Hs1.
  { intros i y Hi Hy. apply Hs; [done|]. rewrite Hl. by apply lookup_app_l_Some. }
  destruct (Nat.eqb_spec index (length l)) as [->|Hne].
  { intros i y Hy. apply Hs1; [|done]. apply lookup_lt_Some in Hy. simpl in Hy. lia. }
  unfold __getitem__ at 1. cbn [h1 elems].
  destruct (l !! index) as [returnitem|] eqn:Hri; cycle 1.
  { intros i y Hy. apply Hs1; [|done]. intros ->. simpl in Hy. congruence. }
  pose proof (lookup_lt_Some _ _ _ Hri) as Hindex.
  rewrite setitem_in_range by done.
  assert (synced (set_slot index lastelt h1)) as Hs2.
  { apply hole_synced_close; [|done]. intros i y Hi Hy.
    split; [by apply Hs1|]. intros ->.
    pose proof (lookup_lt_Some _ _ _ Hy) as Hi'. simpl in Hi'.
    apply Hs1 in Hy; [|done].
    rewrite (Hs (length l) lastelt) in Hy.
    - injection Hy as <-. lia.
    - lia.
    - rewrite Hl. by apply list_lookup_middle. }
  assert (index < length (elems (set_slot index lastelt h1))) as Hin
    by by rewrite length_set_slot.
  destruct (_siftup_synced index _ Hs2 Hin) as (hu & Hu & Hsu & _).
  destruct (_siftdown_synced 0 index _ Hs2 Hin) as (hd & Hd & Hsd & _).
  destruct (Nat.eqb_spec index 0) as [H0|H0].
  - by rewrite Hu.
  - destruct (getitem_in_range (Nat.shiftr (index - 1) 2)
                (set_slot index lastelt h1)) as (p & _ & ->).
    { pose proof (quarter_lt index). lia. }
    unfold call_cmp. destruct (cmp _ p lastelt); [by rewrite Hu|by rewrite Hd].
Qed.

Lemma pop_synced index h : synced h → synced (pop index h).2.
Proof. intros Hs. apply pop_synced_but. intros i y _. apply Hs. Qed.

Lemma remove_synced item h : synced h → synced (remove item h).2.
Proof.
  intros Hs. unfold remove, bind, indexes_pop.
  destruct (_indexes h !! item) as [index|] eqn:Hitem; [|done].
  apply pop_synced_but. cbn [elems _indexes]. intros i y Hi Hy.
  apply Hs in Hy. rewrite lookup_delete_ne; [done|]. intros ->. congruence.
Qed.

(** Writing [item] at the top and repairing from there keeps the index
    right when [item] is in no other slot. *)
Lemma top_write_synced item h :
  synced h → item ∉ tail (elems h) → 0 < length (elems h) →
  ∃ h', (__setitem__ 0 item;; _siftup 0) h = (Return tt, h') ∧ synced h'.
Proof.
  intros Hs Hfresh Hlen. unfold bind. rewrite setitem_in_range by done.
  destruct (_siftup_synced 0 (set_slot 0 item h)) as (h' & -> & Hs' & _).
  - apply hole_synced_close; [|done]. intros i y Hi Hy.
    split; [by apply Hs|]. intros ->. apply Hfresh.
    destruct (elems h) as [|top l]; [done|]. destruct i as [|i]; [done|].
    simpl in *. by eapply list_elem_of_lookup_2.
  - by rewrite length_set_slot.
  - by exists h'.
Qed.

Lemma replace_synced item h :
  synced h → item ∉ tail (elems h) → synced (replace item h).2.
Proof.
  intros Hs Hfresh. unfold replace. unfold bind at 1. unfold __getitem__.
  destruct (elems h !! 0) as [top|] eqn:Htop; [|done].
  pose proof (lookup_lt_Some _ _ _ Htop) as Hlen.
  destruct (top_write_synced item h Hs Hfresh Hlen) as (h' & Hrun & Hs').
  unfold bind in *. destruct (__setitem__ 0 item h) as [[[]|e] h1]; [|done].
  by rewrite Hrun.
Qed.

Lemma pushpop_synced item h :
  synced h → item ∉ tail (elems h) → synced (pushpop item h).2.
Proof.
  intros Hs Hfresh. unfold pushpop. unfold bind at 1. unfold len.
  destruct (Nat.eqb_spec (length (elems h)) 0) as [|Hlen]; [done|].
  unfold bind at 1. unfold __getitem__.
  destruct (elems h !! 0) as [top|] eqn:Htop; [|done].
  unfold bind at 1. unfold call_cmp.
  destruct (cmp h top item); [|done].
  destruct (top_write_synced item h Hs Hfresh) as (h' & Hrun & Hs'); [lia|].
  unfold bind in *. destruct (__setitem__ 0 item h) as [[[]|e] h1]; [|done].
  by rewrite Hrun.
Qed.

(** ** The repairs rearrange the items *)

Lemma insert_hole_move (l : list Item) v pos j y :
  pos < length l → j ≠ pos → l !! j = Some y →
  <[j := v]> (<[pos := y]> l) ≡ₚ <[pos := v]> l.
Proof.
  intros Hpos Hj Hy.
  rewrite <-(Permutation_insert_swap (<[pos := v]> l) pos j v y).
  - by rewrite list_insert_insert_eq.
  - by apply list_lookup_insert_eq.
  - by rewrite list_lookup_insert_ne.
Qed.

Lemma hole_perm_move v (L : list Item) pos j y h :
  <[pos := v]> (elems h) ≡ₚ L → pos < length (elems h) → j ≠ pos →
  elems h !! j = Some y → <[j := v]> (elems (set_slot pos y h)) ≡ₚ L.
Proof.
  intros HL Hpos Hj Hy. cbn [set_slot elems]. by rewrite insert_hole_move.
Qed.

Lemma hole_perm_fill v (L : list Item) pos h :
  <[pos := v]> (elems h) ≡ₚ L → pos < length (elems h) →
  <[pos := v]> (elems (set_slot pos v h)) ≡ₚ L.
Proof.
  intros HL Hpos. cbn [set_slot elems]. by rewrite list_insert_insert_eq.
Qed.

Lemma _siftdown_Permutation startpos pos h :
  pos < length (elems h) →
  ∃ h', _siftdown startpos pos h = (Return tt, h')
        ∧ elems h' ≡ₚ elems h ∧ same_shape h h'.
Proof.
  intros Hpos. destruct (lookup_lt_is_Some_2 _ _ Hpos) as [v Hv].
  destruct (_siftdown_hole v (λ p h', <[p := v]> (elems h') ≡ₚ elems h)
              (hole_perm_move v (elems h)) startpos pos h Hv)
    as (pos' & h' & -> & Hp & Hpos' & Hsh); [by rewrite list_insert_id|].
  eexists. split; [done|]. split; [done|]. by apply same_shape_set_slot.
Qed.

Lemma _siftup_Permutation pos h :
  pos < length (elems h) →
  ∃ h', _siftup pos h = (Return tt, h')
        ∧ elems h' ≡ₚ elems h ∧ same_shape h h'.
Proof.
  intros Hpos. destruct (lookup_lt_is_Some_2 _ _ Hpos) as [v Hv].
  destruct (_siftup_hole v (λ p h', <[p := v]> (elems h') ≡ₚ elems h)
              (hole_perm_move v (elems h)) (hole_perm_fill v (elems h))
              pos h Hv)
    as (pos' & h' & -> & Hp & Hpos' & Hsh); [by rewrite list_insert_id|].
  eexists. split; [done|]. split; [done|]. by apply same_shape_set_slot.
Qed.

(** ** What the methods do when they raise *)

Lemma push_Raise item h :
  is_Some (_indexes h !! item) → push item h = (Raise RuntimeError, h).
Proof.
  intros Hdup. unfold push, bind, indexes_mem. by rewrite bool_decide_eq_true_2.
Qed.

Lemma push_Return item h :
  _indexes h !! item = None →
  ∃ h', push item h = (Return tt, h') ∧ elems h' ≡ₚ item :: elems h.
Proof.
  intros Hnew. unfold push, bind, indexes_mem, append, len.
  rewrite bool_decide_eq_false_2 by (rewrite Hnew; by intros [? ?]).
  cbn [elems cmp _indexes]. rewrite length_app, Nat.add_sub.
  destruct (_siftdown_Permutation 0 (length (elems h))
              (mkHeap (elems h ++ [item]) (cmp h) (_indexes h)))
    as (h' & -> & Hp & _).
  - cbn [elems]. rewrite length_app. simpl. lia.
  - exists h'. split; [done|]. rewrite Hp. cbn [elems].
    by rewrite Permutation_app_comm.
Qed.

Lemma pop_empty index h : elems h = [] → pop index h = (Raise IndexError, h).
Proof. intros Hnil. unfold pop, bind, list_pop. by rewrite Hnil. Qed.

Lemma replace_empty item h :
  elems h = [] → replace item h = (Raise IndexError, h).
Proof. intros Hnil. unfold replace, bind, __getitem__. by rewrite Hnil. Qed.

Lemma remove_KeyError item h :
  _indexes h !! item = None → remove item h = (Raise KeyError, h).
Proof. intros Hno. unfold remove, bind, indexes_pop. by rewrite Hno. Qed.

Lemma remove_calls_pop item index h :
  _indexes h !! item = Some index →
  remove item h
  = pop index (mkHeap (elems h) (cmp h) (delete item (_indexes h))).
Proof. intros Hi. unfold remove, bind, indexes_pop. by rewrite Hi. Qed.

(** [replace] on a heap that is not empty returns the old top and leaves
    the new item with the items that were below the top. *)
Lemma replace_Return item top h :
  elems h !! 0 = Some top →
  ∃ h', replace item h = (Return top, h')
        ∧ elems h' ≡ₚ item :: tail (elems h) ∧ same_shape h h'.
Proof.
  intros Htop. pose proof (lookup_lt_Some _ _ _ Htop) as Hlen.
  unfold replace, bind. rewrite (getitem_Some _ _ _ Htop).
  rewrite setitem_in_range by done.
  destruct (_siftup_Permutation 0 (set_slot 0 item h))
    as (h' & -> & Hperm & Hl & Hc).
  { by rewrite length_set_slot. }
  exists h'. split; [done|]. split.
  - rewrite Hperm. cbn [set_slot elems]. by destruct (elems h).
  - split; [by rewrite Hl, length_set_slot|done].
Qed.

(** The constructor never raises, whatever the items. *)
Lemma heapify_loop_Return k h :
  k ≤ length (elems h) →
  ∃ h', heapify_loop k h = (Return tt, h') ∧ elems h' ≡ₚ elems h
        ∧ same_shape h h'.
Proof.
  revert h. induction k as [|k IH]; intros h Hk.
  { exists h. by repeat split. }
  simpl. unfold bind.
  destruct (_siftup_Permutation k h) as (h1 & -> & Hp1 & Hl1 & Hc1); [lia|].
  destruct (IH h1) as (h2 & -> & Hp2 & Hl2 & Hc2); [lia|].
  exists h2. repeat split; [by rewrite Hp2|congruence|congruence].
Qed.

(** [heapify] as the assignment of the rebuilt index followed by
    [heapq.heapify], which leaves that index as it is. *)
Lemma heapify_unfold h :
  heapify h
  = let r := heapify_loop (length (elems h) / 2)
               (mkHeap (elems h) (cmp h) (enumerate_indexes 0 (elems h) ∅)) in
    (r.1, mkHeap (elems r.2) (cmp r.2) (enumerate_indexes 0 (elems h) ∅)).
Proof. done. Qed.

Lemma heapify_Return h :
  ∃ h', heapify_loop (length (elems h) / 2)
          (mkHeap (elems h) (cmp h) (enumerate_indexes 0 (elems h) ∅))
        = (Return tt, h')
    ∧ heapify h
      = (Return tt,
         mkHeap (elems h') (cmp h') (enumerate_indexes 0 (elems h) ∅))
    ∧ elems h' ≡ₚ elems h ∧ cmp h' = cmp h.
Proof.
  rewrite heapify_unfold.
  destruct (heapify_loop_Return (length (elems h) / 2)
              (mkHeap (elems h) (cmp h) (enumerate_indexes 0 (elems h) ∅)))
    as (h' & Hrun & Hp & Hl & Hc).
  - cbn [elems]. apply Nat.Div0.div_le_upper_bound. lia.
  - exists h'. rewrite Hrun. by repeat split.
Qed.

Lemma init_Return iterable c :
  ∃ h, __init__ iterable c = (Return tt, h) ∧ elems h ≡ₚ iterable ∧ cmp h = c.
Proof.
  unfold __init__.
  destruct (heapify_Return (mkHeap iterable c ∅)) as (h' & _ & -> & Hp & Hc).
  eexists. split; [done|]. by split.
Qed.

(** The index of a new heap is the one built from the items in the order
    given. *)
Lemma indexes_new_heap iterable c :
  _indexes (new_heap iterable c) = enumerate_indexes 0 iterable ∅.
Proof.
  unfold new_heap, __init__.
  by destruct (heapify_Return (mkHeap iterable c ∅)) as (h' & _ & -> & _).
Qed.

(** ** Properties of every heap *)

(** C7 (as amended).  If the heap is empty, or its top is not at least as
    good as [item] under the relation ([cmp top item] is false), then
    [pushpop item] returns [item] and leaves the heap as it was. *)
Theorem pushpop_keeps item h :
  elems h = [] ∨ (∃ top, elems h !! 0 = Some top ∧ cmp h top item = false) →
  pushpop item h = (Return item, h).
Proof.
  intros [Hnil|(top & Htop & Hcmp)]; unfold pushpop, bind, len.
  - by rewrite Hnil.
  - destruct (Nat.eqb_spec (length (elems h)) 0) as [|_]; [done|].
    unfold call_cmp. by rewrite (getitem_Some _ _ _ Htop), Hcmp.
Qed.

(** C10.  [replace item] on a heap that holds [item] in a slot below the
    top raises nothing: it returns the old top, and the list then holds
    [item] in two slots (it is a rearrangement of [item] followed by the
    items that were below the top). *)
Theorem replace_duplicates item h p :
  0 < p → elems h !! p = Some item →
  ∃ top h', replace item h = (Return top, h')
    ∧ elems h !! 0 = Some top
    ∧ elems h' ≡ₚ item :: tail (elems h)
    ∧ ∃ i j, i ≠ j ∧ elems h' !! i = Some item ∧ elems h' !! j = Some item.
Proof.
  intros Hp Hitem.
  destruct (elems h !! 0) as [top|] eqn:Htop; cycle 1.
  { apply lookup_ge_None in Htop. apply lookup_lt_Some in Hitem. lia. }
  destruct (replace_Return item top h Htop) as (h' & Hrun & Hperm & _).
  exists top, h'. do 3 (split; [done|]).
  destruct (elems h) as [|top' l]; [done|].
  destruct p as [|p]; [lia|]. cbn in Hitem, Hperm.
  symmetry in Hperm. apply Permutation_inj in Hperm as (_ & f & Hf & Hlook).
  exists (f 0), (f (S p)). repeat split.
  - intros Heq. by apply Hf in Heq.
  - by rewrite <-Hlook.
  - by rewrite <-Hlook.
Qed.

(** ** What [pop] returns and leaves *)

Lemma elem_of_list_insert_inv (l : list Item) i y x :
  x ∈ <[i := y]> l → x = y ∨ x ∈ l.
Proof.
  intros (j & Hj)%list_elem_of_lookup.
  destruct (decide (j = i)) as [->|Hne].
  - pose proof (lookup_lt_Some _ _ _ Hj) as Hin. rewrite length_insert in Hin.
    rewrite list_lookup_insert_eq in Hj by done. left. congruence.
  - rewrite list_lookup_insert_ne in Hj by done.
    right. by eapply list_elem_of_lookup_2.
Qed.

Lemma insert_Permutation_delete (l : list Item) i x :
  i < length l → <[i := x]> l ≡ₚ x :: delete i l.
Proof.
  intros Hi. rewrite insert_take_drop, delete_take_drop by done.
  by rewrite Permutation_middle.
Qed.

(** The direction test of [pop] writes nothing and does not raise. *)
Lemma pop_direction index (lastelt : Item) h :
  index < length (elems h) →
  ∃ down : bool,
    (index = 0 → down = true)
    ∧ (if index =? 0 then ret true
       else let! p := __getitem__ (Nat.shiftr (index - 1) 2) in
            call_cmp p lastelt) h = (Return down, h).
Proof.
  intros Hin. destruct (Nat.eqb_spec index 0) as [H0|H0];
    [exists true; by split|].
  destruct (getitem_in_range (Nat.shiftr (index - 1) 2) h) as (p & _ & Hget).
  { pose proof (quarter_lt index). lia. }
  unfold bind. rewrite Hget. unfold call_cmp. exists (cmp h p lastelt).
  by split.
Qed.

(** [pop] seen as: take the last item off, write it into slot [index],
    repair by [_siftup] or by [_siftdown]. *)
Lemma pop_unfold index x lastelt l h :
  elems h = l ++ [lastelt] → l !! index = Some x →
  let h2 := set_slot index lastelt (mkHeap l (cmp h) (_indexes h)) in
  ∃ down : bool,
    (index = 0 → down = true)
    ∧ pop index h
      = ((if down then _siftup index else _siftdown 0 index);; ret x) h2.
Proof.
  intros Hl Hx h2. pose proof (lookup_lt_Some _ _ _ Hx) as Hin.
  destruct (pop_direction index lastelt h2) as (down & Hd0 & Hdown).
  { unfold h2. by rewrite length_set_slot. }
  exists down. split; [done|]. unfold pop. unfold bind at 1. unfold list_pop.
  rewrite Hl, last_snoc, removelast_last. unfold bind at 1. unfold len.
  cbn [elems]. destruct (Nat.eqb_spec index (length l)) as [->|_]; [lia|].
  unfold bind at 1. unfold __getitem__ at 1. cbn [elems]. rewrite Hx.
  unfold bind at 1. rewrite setitem_in_range by done. fold h2.
  unfold bind at 1. rewrite Hdown. done.
Qed.

Lemma pop_last lastelt l h :
  elems h = l ++ [lastelt] →
  pop (length l) h = (Return lastelt, mkHeap l (cmp h) (_indexes h)).
Proof.
  intros Hl. unfold pop, bind, list_pop, len.
  rewrite Hl, last_snoc, removelast_last. cbn [elems].
  by rewrite Nat.eqb_refl.
Qed.

Lemma pop_Return index x h :
  elems h !! index = Some x →
  ∃ h', pop index h = (Return x, h')
        ∧ elems h' ≡ₚ delete index (elems h) ∧ cmp h' = cmp h.
Proof.
  intros Hx. destruct (last (elems h)) as [lastelt|] eqn:Hlast; cycle 1.
  { apply last_None in Hlast. by rewrite Hlast in Hx. }
  apply last_Some in Hlast as [l Hl].
  pose proof (lookup_lt_Some _ _ _ Hx) as Hin. rewrite Hl in Hin, Hx.
  rewrite length_app in Hin. cbn in Hin.
  destruct (decide (index = length l)) as [->|Hne].
  - rewrite list_lookup_middle in Hx by done. injection Hx as <-.
    rewrite (pop_last lastelt l h Hl). eexists. split; [done|].
    split; [|done]. cbn [elems]. rewrite Hl, delete_middle. by rewrite app_nil_r.
  - rewrite lookup_app_l in Hx by lia.
    destruct (pop_unfold index x lastelt l h Hl Hx) as (down & _ & ->).
    set (h2 := set_slot index lastelt (mkHeap l (cmp h) (_indexes h))).
    assert (index < length (elems h2)) as Hin2.
    { unfold h2. rewrite length_set_slot. cbn. lia. }
    assert (elems h2 ≡ₚ delete index (elems h)) as Hperm.
    { unfold h2. cbn [set_slot elems]. rewrite Hl.
      rewrite insert_Permutation_delete by lia.
      rewrite (delete_take_drop (l ++ _)), take_app_le, drop_app_le by lia.
      rewrite app_assoc, <-delete_take_drop. by rewrite Permutation_app_comm. }
    unfold bind. destruct down.
    + destruct (_siftup_Permutation index h2 Hin2) as (h' & -> & Hp & _ & Hc).
      exists h'. split; [done|]. split; [by rewrite Hp|by rewrite Hc].
    + destruct (_siftdown_Permutation 0 index h2 Hin2)
        as (h' & -> & Hp & _ & Hc).
      exists h'. split; [done|]. split; [by rewrite Hp|by rewrite Hc].
Qed.

Lemma pop_beyond index h :
  length (elems h) ≤ index →
  (pop index h).1 = Raise IndexError
  ∧ (pop index h).2 = mkHeap (removelast (elems h)) (cmp h) (_indexes h).
Proof.
  intros Hge. destruct (last (elems h)) as [lastelt|] eqn:Hlast; cycle 1.
  { apply last_None in Hlast. rewrite (pop_empty _ _ Hlast), Hlast.
    by destruct h; simplify_eq/=. }
  unfold pop, bind, list_pop, len. rewrite Hlast.
  apply last_Some in Hlast as [l Hl]. rewrite Hl in Hge |- *.
  rewrite removelast_last. cbn [elems]. rewrite length_app in Hge. cbn in Hge.
  destruct (Nat.eqb_spec index (length l)) as [|_]; [lia|].
  unfold __getitem__. cbn [elems]. by rewrite lookup_ge_None_2 by lia.
Qed.

Lemma pop_Return_inv index x h h' :
  pop index h = (Return x, h') → elems h !! index = Some x.
Proof.
  intros Hpop. destruct (elems h !! index) as [x0|] eqn:Hx.
  - destruct (pop_Return index x0 h Hx) as (h0 & Hpop0 & _). congruence.
  - apply lookup_ge_None in Hx. destruct (pop_beyond index h Hx) as [Hr _].
    rewrite Hpop in Hr. done.
Qed.

(** ** Slots and their parents *)

Lemma parent_child k p :
  0 < k → Nat.shiftr (k - 1) 1 = p ↔ k = 2 * p + 1 ∨ k = 2 * p + 2.
Proof.
  intros Hk. rewrite Nat.shiftr_div_pow2. change (2 ^ 1) with 2.
  pose proof (Nat.div_mod_eq (k - 1) 2) as Hdm.
  pose proof (Nat.mod_upper_bound (k - 1) 2 ltac:(lia)) as Hm.
  lia.
Qed.

Lemma below_le s k : below s k → s ≤ k.
Proof.
  induction 1 as [|k Hk _ IH]; [done|]. pose proof (parent_lt k Hk). lia.
Qed.

Lemma below_root k : below 0 k.
Proof.
  induction (lt_wf k) as [k _ IH]. destruct (decide (k = 0)) as [->|Hk].
  - constructor.
  - apply below_child; [lia|]. apply IH, parent_lt. lia.
Qed.

Lemma below_parent s pos : below s pos → s < pos → below s (Nat.shiftr (pos - 1) 1).
Proof. destruct 1; [lia|done]. Qed.

(** ** The repairs put the list in order

    Here the built-in [<] is a strict weak order.  [_siftup] run at [s] on
    a list in order below [s] leaves it in order from [s] on; [_siftdown]
    moves an item up to where it follows its parent. *)

Section order.

Hypothesis lt_weak_order : weak_order.

Lemma le_refl x : le x x = true.
Proof.
  unfold le. destruct (lt x x) eqn:E; [|done].
  by rewrite (proj1 lt_weak_order _ _ E) in E.
Qed.

Lemma lt_le x y : lt x y = true → le x y = true.
Proof. intros E. unfold le. by rewrite (proj1 lt_weak_order _ _ E). Qed.

Lemma le_trans x y z : le x y = true → le y z = true → le x z = true.
Proof. apply lt_weak_order. Qed.

Lemma ordered_from_mono s s' l :
  s ≤ s' → ordered_from le s l → ordered_from le s' l.
Proof. intros Hs Hord k x p Hk Hp. apply Hord; [done|lia]. Qed.

Lemma hole_ordered_insert s pos w l :
  hole_ordered s pos l → hole_ordered s pos (<[pos := w]> l).
Proof.
  intros [Ha Hc]. split.
  - intros k x p Hk Hs Hkp Hpp. rewrite !list_lookup_insert_ne by done.
    by apply Ha.
  - intros k x g Hk Hkp Hpos Hs.
    pose proof (parent_lt k Hk). pose proof (parent_lt pos Hpos).
    rewrite !list_lookup_insert_ne by lia. by apply Hc.
Qed.

(** The loop of [_siftdown] ends at [startpos]. *)
Lemma hole_close_start v s pos l :
  pos ≤ s → hole_ordered s pos l → hole_fits v pos l →
  ordered_from le s (<[pos := v]> l).
Proof.
  intros Hpos [Ha _] Hb k x p Hk Hs. pose proof (parent_lt k Hk) as Hlt.
  rewrite (list_lookup_insert_ne _ pos k) by lia. intros Hx.
  destruct (decide (Nat.shiftr (k - 1) 1 = pos)) as [Hkp|Hkp].
  - rewrite Hkp. intros Hp.
    pose proof (lookup_lt_Some _ _ _ Hp) as Hin. rewrite length_insert in Hin.
    rewrite list_lookup_insert_eq in Hp by done. injection Hp as <-.
    by eapply Hb.
  - rewrite list_lookup_insert_ne by done. apply Ha; [done|done|lia|done|done].
Qed.

(** The loop of [_siftdown] ends under a parent that [v] is not less than. *)
Lemma hole_close_fit v s pos g l :
  0 < pos → l !! Nat.shiftr (pos - 1) 1 = Some g → le g v = true →
  hole_ordered s pos l → hole_fits v pos l →
  ordered_from le s (<[pos := v]> l).
Proof.
  intros Hpos Hg Hgv [Ha _] Hb k x p Hk Hs. pose proof (parent_lt k Hk) as Hlt.
  destruct (decide (k = pos)) as [->|Hne].
  - intros Hx. pose proof (lookup_lt_Some _ _ _ Hx) as Hin.
    rewrite length_insert in Hin.
    rewrite list_lookup_insert_eq in Hx by done. injection Hx as <-.
    rewrite list_lookup_insert_ne by lia. intros Hp. by simplify_eq.
  - rewrite (list_lookup_insert_ne _ pos k) by done. intros Hx.
    destruct (decide (Nat.shiftr (k - 1) 1 = pos)) as [Hkp|Hkp].
    + rewrite Hkp. intros Hp.
      pose proof (lookup_lt_Some _ _ _ Hp) as Hin. rewrite length_insert in Hin.
      rewrite list_lookup_insert_eq in Hp by done. injection Hp as <-.
      by eapply Hb.
    + rewrite list_lookup_insert_ne by done. by apply Ha.
Qed.

(** One turn of the loop of [_siftdown]: the parent [g] comes down. *)
Lemma hole_move_up v s pos g l :
  s < pos → below s pos → pos < length l →
  l !! Nat.shiftr (pos - 1) 1 = Some g → lt v g = true →
  hole_ordered s pos l → hole_fits v pos l →
  hole_ordered s (Nat.shiftr (pos - 1) 1) (<[pos := g]> l)
  ∧ hole_fits v (Nat.shiftr (pos - 1) 1) (<[pos := g]> l).
Proof.
  intros Hs Hbelow Hin Hg Hvg [Ha Hc] Hb.
  assert (0 < pos) as Hpos by lia.
  pose proof (parent_lt pos Hpos) as Hpp.
  pose proof (below_le _ _ (below_parent _ _ Hbelow Hs)) as Hsp.
  remember (Nat.shiftr (pos - 1) 1) as pp eqn:Epp.
  assert (∀ k x, 0 < k → Nat.shiftr (k - 1) 1 = pp → k ≠ pos →
            l !! k = Some x → le g x = true) as Hsib.
  { intros k x Hk Hkp Hne Hx. apply (Ha k x g); rewrite ?Hkp; try done; lia. }
  split; [split|].
  - intros k x p Hk Hsk Hkpp Hppp. pose proof (parent_lt k Hk) as Hlt.
    destruct (decide (k = pos)) as [->|Hne]; [done|].
    rewrite (list_lookup_insert_ne _ pos k) by done. intros Hx.
    destruct (decide (Nat.shiftr (k - 1) 1 = pos)) as [Hkp|Hkp].
    + rewrite Hkp, list_lookup_insert_eq by done. intros [= <-].
      by apply (Hc k x g).
    + rewrite list_lookup_insert_ne by done. by apply Ha.
  - intros k x gg Hk Hkpp Hpp0 Hspp.
    pose proof (parent_lt pp Hpp0) as Hlt.
    rewrite (list_lookup_insert_ne _ pos (Nat.shiftr (pp - 1) 1)) by lia.
    intros Hx Hgg.
    assert (le gg g = true) as Hggg.
    { apply (Ha pp g gg); try done; lia. }
    destruct (decide (k = pos)) as [->|Hne].
    + rewrite list_lookup_insert_eq in Hx by done. by injection Hx as <-.
    + rewrite list_lookup_insert_ne in Hx by done.
      eapply le_trans; [done|]. by apply (Hsib k).
  - intros k x Hk Hkpp. destruct (decide (k = pos)) as [->|Hne].
    + rewrite list_lookup_insert_eq by done. intros [= <-]. by apply lt_le.
    + rewrite list_lookup_insert_ne by done. intros Hx.
      eapply le_trans; [by apply lt_le|]. by apply (Hsib k).
Qed.

Lemma _siftdown_loop_ordered n v s pos h :
  pos ≤ n → below s pos → pos < length (elems h) →
  hole_ordered s pos (elems h) → hole_fits v pos (elems h) →
  ∃ pos' h', _siftdown_loop n v s pos h = (Return pos', h')
    ∧ pos' < length (elems h') ∧ same_shape h h'
    ∧ ordered_from le s (<[pos' := v]> (elems h')).
Proof.
  revert pos h. induction n as [|n IH]; intros pos h Hn Hbelow Hin Hho Hfit.
  { exists pos, h. repeat split; [done|]. apply hole_close_start; [lia|done..]. }
  rewrite _siftdown_loop_S.
  destruct (Nat.ltb_spec s pos) as [Hlt|Hge]; cycle 1.
  { exists pos, h. repeat split; [done|]. by apply hole_close_start. }
  pose proof (parent_lt pos ltac:(lia)) as Hpar.
  destruct (getitem_in_range (Nat.shiftr (pos - 1) 1) h) as (g & Hg & Hget);
    [lia|].
  unfold bind. rewrite Hget. destruct (lt v g) eqn:Hvg; cycle 1.
  { exists pos, h. repeat split; [done|].
    apply (hole_close_fit v s pos g); try done; [lia|].
    unfold le. by rewrite Hvg. }
  rewrite setitem_in_range by done.
  destruct (hole_move_up v s pos g (elems h)) as [Hho' Hfit']; try done.
  destruct (IH (Nat.shiftr (pos - 1) 1) (set_slot pos g h))
    as (pos' & h' & -> & Hpos' & [Hl Hc] & Hord).
  - lia.
  - by apply below_parent.
  - rewrite length_set_slot. lia.
  - done.
  - done.
  - exists pos', h'. repeat split; try done.
    by rewrite Hl, length_set_slot.
Qed.

Lemma _siftdown_ordered v s pos h :
  below s pos → elems h !! pos = Some v →
  hole_ordered s pos (elems h) → hole_fits v pos (elems h) →
  ∃ h', _siftdown s pos h = (Return tt, h') ∧ same_shape h h'
        ∧ ordered_from le s (elems h').
Proof.
  intros Hbelow Hv Hho Hfit. pose proof (lookup_lt_Some _ _ _ Hv) as Hin.
  unfold _siftdown, bind. rewrite (getitem_Some _ _ _ Hv).
  destruct (_siftdown_loop_ordered pos v s pos h)
    as (pos' & h' & -> & Hpos' & Hsh & Hord); try done.
  rewrite setitem_in_range by done.
  eexists. split; [done|]. split; [by apply same_shape_set_slot|done].
Qed.

(** The child that [_siftup] moves up precedes both children. *)
Lemma smaller_child_least pos m c h :
  2 * pos + 1 < length (elems h) →
  smaller_child (length (elems h)) (2 * pos + 1) h = (Return m, h) →
  elems h !! m = Some c →
  ∀ k x, 0 < k → Nat.shiftr (k - 1) 1 = pos → elems h !! k = Some x →
    le c x = true.
Proof.
  intros Hleft Hsm Hc k x Hk Hkp Hx. apply parent_child in Hkp; [|done].
  unfold smaller_child, bind, ret in Hsm.
  destruct (Nat.ltb_spec (2 * pos + 1 + 1) (length (elems h))) as [Hr|Hr].
  - destruct (getitem_in_range (2 * pos + 1) h) as (a & Ha & Hga); [lia|].
    destruct (getitem_in_range (2 * pos + 1 + 1) h) as (b & Hb & Hgb); [lia|].
    rewrite Hga, Hgb in Hsm.
    replace (2 * pos + 2) with (2 * pos + 1 + 1) in Hkp by lia.
    assert (x = a ∨ x = b) as Hxab by (destruct Hkp as [-> | ->]; naive_solver).
    destruct (lt a b) eqn:Hab; cbn [negb] in Hsm.
    + assert (m = 2 * pos + 1) as -> by congruence.
      assert (c = a) as -> by congruence.
      destruct Hxab as [-> | ->]; [apply le_refl|by apply lt_le].
    + assert (m = 2 * pos + 1 + 1) as -> by congruence.
      assert (c = b) as -> by congruence.
      destruct Hxab as [-> | ->]; [|apply le_refl]. unfold le. by rewrite Hab.
  - assert (m = 2 * pos + 1) as -> by congruence. destruct Hkp as [-> | ->].
    + assert (c = x) as -> by congruence. apply le_refl.
    + apply lookup_lt_Some in Hx. lia.
Qed.

(** One turn of the loop of [_siftup]: the smaller child [c], at [m],
    comes up. *)
Lemma hole_move_down s pos m c l :
  s ≤ pos → 0 < m → Nat.shiftr (m - 1) 1 = pos → l !! m = Some c →
  (∀ k x, 0 < k → Nat.shiftr (k - 1) 1 = pos → l !! k = Some x →
     le c x = true) →
  hole_ordered s pos l → hole_ordered s m (<[pos := c]> l).
Proof.
  intros Hs Hm Hmp Hc Hleast [Ha Hcc].
  pose proof (parent_lt m Hm) as Hmlt. rewrite Hmp in Hmlt.
  pose proof (lookup_lt_Some _ _ _ Hc) as Hmin.
  split.
  - intros k x p Hk Hsk Hkm Hpm. pose proof (parent_lt k Hk) as Hlt.
    destruct (decide (k = pos)) as [->|Hne].
    + rewrite list_lookup_insert_eq by lia. intros [= <-].
      rewrite list_lookup_insert_ne by lia. intros Hp.
      by apply (Hcc m c p).
    + rewrite (list_lookup_insert_ne _ pos k) by done. intros Hx.
      destruct (decide (Nat.shiftr (k - 1) 1 = pos)) as [Hkp|Hkp].
      * rewrite Hkp, list_lookup_insert_eq by lia. intros [= <-].
        by apply (Hleast k).
      * rewrite list_lookup_insert_ne by done. by apply Ha.
  - intros k x g Hk Hkm _ _. pose proof (parent_lt k Hk) as Hlt.
    rewrite Hmp, list_lookup_insert_eq by lia.
    rewrite list_lookup_insert_ne by lia. intros Hx [= <-].
    apply (Ha k x c); rewrite ?Hkm; try done; lia.
Qed.

Lemma _siftup_loop_ordered n s pos h :
  length (elems h) - (2 * pos + 1) ≤ n → below s pos →
  pos < length (elems h) → hole_ordered s pos (elems h) →
  ∃ pos' h',
    _siftup_loop n (length (elems h)) pos (2 * pos + 1) h = (Return pos', h')
    ∧ pos' < length (elems h') ∧ same_shape h h' ∧ below s pos'
    ∧ hole_ordered s pos' (elems h') ∧ length (elems h') ≤ 2 * pos' + 1.
Proof.
  revert pos h. induction n as [|n IH]; intros pos h Hn Hbelow Hin Hho.
  { exists pos, h. do 5 (split; [done|]). lia. }
  rewrite _siftup_loop_S.
  destruct (Nat.ltb_spec (2 * pos + 1) (length (elems h))) as [Hlt|Hge]; cycle 1.
  { exists pos, h. by do 5 (split; [done|]). }
  destruct (smaller_child_in_range (length (elems h)) (2 * pos + 1) h)
    as [m Hsm]; [done|].
  unfold bind. rewrite Hsm.
  pose proof (smaller_child_Return _ _ _ _ _ Hsm) as (_ & Hm & Hme).
  destruct (getitem_in_range m h) as (c & Hc & ->); [lia|].
  rewrite setitem_in_range by done.
  assert (Nat.shiftr (m - 1) 1 = pos) as Hmp by (apply parent_child; lia).
  destruct (IH m (set_slot pos c h))
    as (pos' & h' & Hrun & Hpos' & [Hl Hcmp] & Hbelow' & Hho' & Hleaf).
  - rewrite length_set_slot. lia.
  - apply below_child; [lia|]. by rewrite Hmp.
  - rewrite length_set_slot. lia.
  - apply (hole_move_down s pos m c); try done.
    + by apply below_le.
    + lia.
    + by apply (smaller_child_least pos m c h).
  - rewrite length_set_slot in Hrun. rewrite Hrun.
    exists pos', h'. do 2 (split; [done|]).
    split; [split; [by rewrite Hl, length_set_slot|done]|done].
Qed.

(** [_siftup] at [s] on a list in order below [s]. *)
Lemma _siftup_ordered s h :
  s < length (elems h) → ordered_from le (S s) (elems h) →
  ∃ h', _siftup s h = (Return tt, h') ∧ same_shape h h'
        ∧ ordered_from le s (elems h').
Proof.
  intros Hin Hord. destruct (lookup_lt_is_Some_2 _ _ Hin) as [v Hv].
  unfold _siftup, bind, len. rewrite (getitem_Some _ _ _ Hv).
  destruct (_siftup_loop_ordered (length (elems h)) s s h)
    as (p1 & h1 & -> & Hp1 & Hsh1 & Hbelow & Hho & Hleaf);
    [lia|constructor|done| |].
  { split.
    - intros k x p Hk Hs Hks Hps. apply Hord; [done|lia].
    - intros k x g Hk Hkp Hs0 Hs. pose proof (parent_lt s Hs0). lia. }
  rewrite setitem_in_range by done.
  destruct (_siftdown_ordered v s p1 (set_slot p1 v h1))
    as (h2 & -> & Hsh2 & Hord2).
  - done.
  - cbn [set_slot elems]. by apply list_lookup_insert_eq.
  - cbn [set_slot elems]. by apply hole_ordered_insert.
  - intros k x Hk Hkp Hx. cbn [set_slot elems] in Hx.
    apply lookup_lt_Some in Hx. rewrite length_insert in Hx.
    apply parent_child in Hkp; [|done]. lia.
  - exists h2. split; [done|]. split; [|done].
    destruct Hsh1 as [Hl1 Hc1], Hsh2 as [Hl2 Hc2].
    rewrite length_set_slot in Hl2. cbn [set_slot cmp] in Hc2.
    split; congruence.
Qed.

Lemma heapify_loop_ordered k h :
  k ≤ length (elems h) → ordered_from le k (elems h) →
  ∃ h', heapify_loop k h = (Return tt, h') ∧ same_shape h h'
        ∧ ordered_from le 0 (elems h').
Proof.
  revert h. induction k as [|k IH]; intros h Hk Hord.
  { exists h. by repeat split. }
  simpl. unfold bind.
  destruct (_siftup_ordered k h) as (h1 & -> & [Hl1 Hc1] & Hord1); [lia|done|].
  destruct (IH h1) as (h2 & -> & [Hl2 Hc2] & Hord2); [lia|done|].
  exists h2. split; [done|]. split; [split; congruence|done].
Qed.

(** The heap invariant is the order from the root, for a relation that
    [agrees] with the built-in order. *)
Lemma heap_ordered_from h :
  agrees h → heap_ordered h ↔ ordered_from le 0 (elems h).
Proof.
  intros Hag. split.
  - intros Hord k x p Hk _ Hx Hp. destruct (Hord k x Hk Hx) as (p' & Hp' & Hle).
    rewrite <-Hag. congruence.
  - intros Hord k x Hk Hx. pose proof (parent_lt k Hk) as Hlt.
    pose proof (lookup_lt_Some _ _ _ Hx) as Hin.
    destruct (lookup_lt_is_Some_2 (elems h) (Nat.shiftr (k - 1) 1)) as [p Hp];
      [lia|].
    exists p. split; [done|]. rewrite Hag. apply (Hord k x p); [done|lia|done..].
Qed.

Lemma agrees_same_shape h h' : same_shape h h' → agrees h → agrees h'.
Proof. intros [_ Hc] Hag x y. by rewrite Hc. Qed.

(** *** The methods keep the heap in order *)

Lemma ordered_from_app_l R s (l k : list Item) :
  ordered_from R s (l ++ k) → ordered_from R s l.
Proof.
  intros Hord j x p Hj Hs Hx Hp.
  apply (Hord j x p); [done|done|by apply lookup_app_l_Some..].
Qed.

Lemma ordered_from_nil R s : ordered_from R s [].
Proof. by intros k x p _ _ Hx. Qed.

(** No slot has its parent in the second half of the list. *)
Lemma ordered_from_half R (l : list Item) : ordered_from R (length l / 2) l.
Proof.
  intros k x p Hk Hs Hx _. apply lookup_lt_Some in Hx.
  pose proof (proj1 (parent_child k _ Hk) eq_refl) as Hkp.
  pose proof (Nat.div_mod_eq (length l) 2) as Hdm.
  pose proof (Nat.mod_upper_bound (length l) 2 ltac:(lia)) as Hm.
  lia.
Qed.

Lemma top_write_ordered item h :
  0 < length (elems h) → ordered_from le 0 (elems h) →
  ∃ h', (__setitem__ 0 item;; _siftup 0) h = (Return tt, h')
        ∧ same_shape h h' ∧ ordered_from le 0 (elems h').
Proof.
  intros Hlen Hord. unfold bind. rewrite setitem_in_range by done.
  destruct (_siftup_ordered 0 (set_slot 0 item h))
    as (h' & -> & [Hl Hc] & Hord').
  - by rewrite length_set_slot.
  - intros k x p Hk Hs. cbn [set_slot elems].
    pose proof (parent_lt k Hk).
    rewrite !list_lookup_insert_ne by lia. apply Hord; [done|lia].
  - exists h'. split; [done|]. split; [|done].
    rewrite length_set_slot in Hl. by split.
Qed.

Lemma push_ordered item h :
  _indexes h !! item = None → ordered_from le 0 (elems h) →
  ∃ h', push item h = (Return tt, h') ∧ cmp h' = cmp h
        ∧ ordered_from le 0 (elems h').
Proof.
  intros Hnew Hord. unfold push, bind, indexes_mem, append, len.
  rewrite bool_decide_eq_false_2 by (rewrite Hnew; by intros [? ?]).
  cbn [elems cmp _indexes]. rewrite length_app, Nat.add_sub.
  set (h1 := mkHeap (elems h ++ [item]) (cmp h) (_indexes h)).
  assert (∀ k x, length (elems h) < k → (elems h ++ [item]) !! k = Some x →
            False) as Hout.
  { intros k x Hk Hx. apply lookup_lt_Some in Hx. rewrite length_app in Hx.
    cbn in Hx. lia. }
  destruct (_siftdown_ordered item 0 (length (elems h)) h1)
    as (h' & -> & [_ Hc] & Hord').
  - apply below_root.
  - apply list_lookup_middle. done.
  - split.
    + intros k x p Hk _ Hkl Hpl Hx Hp. cbn [h1 elems] in Hx, Hp.
      pose proof (parent_lt k Hk).
      assert (k < length (elems h)) as Hin.
      { destruct (decide (k < length (elems h))); [done|].
        destruct (Hout k x); [lia|done]. }
      rewrite lookup_app_l in Hx, Hp by lia. apply (Hord k x p); [done|lia|done..].
    + intros k x g Hk Hkp _ _ Hx _. pose proof (parent_lt k Hk).
      destruct (Hout k x); [lia|done].
  - intros k x Hk Hkp Hx. pose proof (parent_lt k Hk).
    destruct (Hout k x); [lia|done].
  - by exists h'.
Qed.

Lemma pop_top_ordered h :
  ordered_from le 0 (elems h) → ordered_from le 0 (elems (pop 0 h).2).
Proof.
  intros Hord. destruct (last (elems h)) as [lastelt|] eqn:Hlast; cycle 1.
  { apply last_None in Hlast. by rewrite (pop_empty _ _ Hlast). }
  apply last_Some in Hlast as [l Hl]. rewrite Hl in Hord.
  apply ordered_from_app_l in Hord.
  destruct (l !! 0) as [x|] eqn:Hx; cycle 1.
  { apply lookup_ge_None in Hx. assert (l = []) as -> by (apply nil_length_inv; lia).
    pose proof (pop_last lastelt [] h Hl) as Hp. cbn [length] in Hp.
    rewrite Hp. apply ordered_from_nil. }
  pose proof (lookup_lt_Some _ _ _ Hx) as Hlen.
  destruct (pop_unfold 0 x lastelt l h Hl Hx) as (down & Hd & ->).
  rewrite (Hd eq_refl). unfold bind.
  set (h1 := mkHeap l (cmp h) (_indexes h)).
  destruct (top_write_ordered lastelt h1 Hlen Hord) as (h' & Hrun & _ & Hord').
  unfold bind in Hrun. rewrite setitem_in_range in Hrun by done.
  by rewrite Hrun.
Qed.

Lemma replace_ordered item h :
  ordered_from le 0 (elems h) → ordered_from le 0 (elems (replace item h).2).
Proof.
  intros Hord. unfold replace. unfold bind at 1. unfold __getitem__.
  destruct (elems h !! 0) as [top|] eqn:Htop; [|done].
  pose proof (lookup_lt_Some _ _ _ Htop) as Hlen.
  destruct (top_write_ordered item h Hlen Hord) as (h' & Hrun & _ & Hord').
  unfold bind in *. destruct (__setitem__ 0 item h) as [[[]|e] h1]; [|done].
  by rewrite Hrun.
Qed.

Lemma pushpop_ordered item h :
  ordered_from le 0 (elems h) → ordered_from le 0 (elems (pushpop item h).2).
Proof.
  intros Hord. unfold pushpop. unfold bind at 1. unfold len.
  destruct (Nat.eqb_spec (length (elems h)) 0) as [|Hlen]; [done|].
  unfold bind at 1. unfold __getitem__.
  destruct (elems h !! 0) as [top|] eqn:Htop; [|done].
  unfold bind at 1. unfold call_cmp.
  destruct (cmp h top item); [|done].
  destruct (top_write_ordered item h) as (h' & Hrun & _ & Hord'); [lia|done|].
  unfold bind in *. destruct (__setitem__ 0 item h) as [[[]|e] h1]; [|done].
  by rewrite Hrun.
Qed.

(** The relation never changes. *)
Lemma cmp_exec k h : cmp (exec k h) = cmp h.
Proof.
  destruct k as [item|index|item|item|item]; cbn [exec].
  - unfold push, bind, indexes_mem, append, len.
    case_bool_decide; [done|]. cbn [elems cmp _indexes].
    destruct (_siftdown_Permutation 0 (length (elems h ++ [item]) - 1)
                (mkHeap (elems h ++ [item]) (cmp h) (_indexes h)))
      as (h' & -> & _ & _ & Hc); [|done].
    cbn [elems]. rewrite length_app. cbn. lia.
  - destruct (elems h !! index) as [x|] eqn:Hx.
    + by destruct (pop_Return index x h Hx) as (h' & -> & _ & Hc).
    + apply lookup_ge_None in Hx. by rewrite (proj2 (pop_beyond index h Hx)).
  - unfold remove, bind, indexes_pop.
    destruct (_indexes h !! item) as [index|]; [|done].
    set (h1 := mkHeap _ _ _). change (cmp h) with (cmp h1).
    destruct (elems h1 !! index) as [x|] eqn:Hx.
    + by destruct (pop_Return index x h1 Hx) as (h' & -> & _ & Hc).
    + apply lookup_ge_None in Hx. by rewrite (proj2 (pop_beyond index h1 Hx)).
  - unfold replace. unfold bind at 1. unfold __getitem__.
    destruct (elems h !! 0) as [top|] eqn:Htop; [|done].
    by destruct (replace_Return item top h Htop) as (h' & Hrun & _ & _ & Hc);
      unfold replace, bind in Hrun; rewrite (getitem_Some _ _ _ Htop) in Hrun;
      unfold bind; rewrite Hrun.
  - unfold pushpop. unfold bind at 1. unfold len.
    destruct (Nat.eqb_spec (length (elems h)) 0) as [|Hlen]; [done|].
    unfold bind at 1. unfold __getitem__.
    destruct (elems h !! 0) as [top|] eqn:Htop; [|done].
    unfold bind at 1. unfold call_cmp. destruct (cmp h top item); [|done].
    destruct (replace_Return item top h Htop) as (h' & Hrun & _ & _ & Hc).
    unfold replace, bind in Hrun. rewrite (getitem_Some _ _ _ Htop) in Hrun.
    unfold bind.
    destruct (__setitem__ 0 item h) as [[[]|e] h1]; [|done].
    destruct (_siftup 0 h1) as [[[]|e] h2]; [|done].
    unfold ret in *. by simplify_eq.
Qed.

(** The top precedes every item. *)
Lemma root_least (l : list Item) top :
  ordered_from le 0 l → l !! 0 = Some top →
  ∀ k x, l !! k = Some x → le top x = true.
Proof.
  intros Hord Htop k. induction (lt_wf k) as [k _ IH]. intros x Hx.
  destruct (decide (k = 0)) as [->|Hk].
  { assert (x = top) as -> by congruence. apply le_refl. }
  pose proof (parent_lt k ltac:(lia)) as Hlt.
  pose proof (lookup_lt_Some _ _ _ Hx) as Hin.
  destruct (lookup_lt_is_Some_2 l (Nat.shiftr (k - 1) 1)) as [p Hp]; [lia|].
  eapply le_trans; [by apply (IH _ Hlt p)|].
  apply (Hord k x p); [lia|lia|done..].
Qed.

Lemma ordered_exec k h :
  agrees h → ordered_from le 0 (elems (exec k h)) → heap_ordered (exec k h).
Proof.
  intros Hag Hord. apply heap_ordered_from; [|done].
  intros x y. by rewrite cmp_exec.
Qed.

(** *** The properties *)

(** X1.  When the relation given to the constructor is the order [heapq]
    uses ([cmp x y] is [not y < x], as the default [x <= y] is), the
    constructor returns a heap that holds the given items and satisfies the
    heap invariant. *)
Theorem init_heap_ordered iterable c :
  (∀ x y, c x y = le x y) →
  ∃ h, __init__ iterable c = (Return tt, h)
       ∧ elems h ≡ₚ iterable ∧ heap_ordered h.
Proof.
  intros Hc. unfold __init__.
  destruct (heapify_Return (mkHeap iterable c ∅))
    as (h' & Hrun & -> & Hperm & Hcmp).
  cbn [elems cmp] in *.
  eexists. split; [done|]. split; [done|].
  apply heap_ordered_from; [intros x y; cbn [cmp]; by rewrite Hcmp|].
  cbn [elems].
  destruct (heapify_loop_ordered (length iterable / 2)
              (mkHeap iterable c (enumerate_indexes 0 iterable ∅)))
    as (h'' & Hrun' & _ & Hord).
  - cbn [elems]. apply Nat.Div0.div_le_upper_bound. lia.
  - apply ordered_from_half.
  - rewrite Hrun' in Hrun. by simplify_eq.
Qed.

(** X2.  With such a relation, [push] keeps the heap invariant, whether it
    returns or raises. *)
Theorem push_keeps_order item h :
  agrees h → heap_ordered h → heap_ordered (push item h).2.
Proof.
  intros Hag Hord. apply (ordered_exec (Push item)); [done|]. cbn [exec].
  apply heap_ordered_from in Hord; [|done].
  destruct (_indexes h !! item) as [i|] eqn:Hi.
  - by rewrite push_Raise.
  - by destruct (push_ordered item h Hi Hord) as (h' & -> & _ & Hord').
Qed.

Lemma pop_edge_ordered index h :
  ordered_from le 0 (elems h) →
  index = 0 ∨ length (elems h) ≤ S index →
  ordered_from le 0 (elems (pop index h).2).
Proof.
  intros Hord [->|Hend]; [by apply pop_top_ordered|].
  destruct (last (elems h)) as [lastelt|] eqn:Hlast; cycle 1.
  { apply last_None in Hlast. by rewrite (pop_empty _ _ Hlast). }
  apply last_Some in Hlast as [l Hl]. rewrite Hl in Hord, Hend.
  apply ordered_from_app_l in Hord. rewrite length_app in Hend. cbn in Hend.
  destruct (decide (index = length l)) as [->|Hne].
  - by rewrite (pop_last lastelt l h Hl).
  - rewrite (proj2 (pop_beyond index h ltac:(rewrite Hl, length_app; cbn; lia))).
    cbn [elems]. by rewrite Hl, removelast_last.
Qed.

(** X3.  With such a relation, [pop] keeps the heap invariant when it is
    called at the top (the default), at the last slot or beyond it. *)
Theorem pop_keeps_order index h :
  agrees h → heap_ordered h →
  index = 0 ∨ length (elems h) ≤ S index →
  heap_ordered (pop index h).2.
Proof.
  intros Hag Hord Hindex. apply (ordered_exec (Pop index)); [done|]. cbn [exec].
  apply pop_edge_ordered; [|done]. by apply heap_ordered_from.
Qed.

(** X22.  With such a relation, [remove] keeps the heap invariant when the
    index sends the item to the top or to the last slot, and when it raises
    KeyError. *)
Theorem remove_keeps_order item h :
  agrees h → heap_ordered h →
  (∀ index, _indexes h !! item = Some index →
     index = 0 ∨ length (elems h) ≤ S index) →
  heap_ordered (remove item h).2.
Proof.
  intros Hag Hord Hindex. apply (ordered_exec (Remove item)); [done|].
  cbn [exec]. apply heap_ordered_from in Hord; [|done].
  destruct (_indexes h !! item) as [index|] eqn:Hi; cycle 1.
  { by rewrite remove_KeyError. }
  rewrite (remove_calls_pop item index h Hi).
  apply pop_edge_ordered; [done|]. by apply Hindex.
Qed.

(** X4.  With such a relation, the item that [pop()] returns from a heap
    that satisfies the invariant precedes every item left in the heap. *)
Theorem pop_top_least x h h' :
  agrees h → heap_ordered h → pop 0 h = (Return x, h') →
  ∀ y, y ∈ elems h' → cmp h x y = true.
Proof.
  intros Hag Hord Hpop y Hy. apply heap_ordered_from in Hord; [|done].
  pose proof (pop_Return_inv _ _ _ _ Hpop) as Hx.
  destruct (pop_Return 0 x h Hx) as (h0 & Hpop0 & Hperm & _).
  assert (h0 = h') as -> by congruence.
  rewrite Hperm in Hy. apply list_elem_of_lookup in Hy as [i Hi].
  rewrite Hag. apply (root_least (elems h) x Hord Hx (S i)).
  rewrite <-Hi. by destruct (elems h).
Qed.

(** X5.  With such a relation, [replace] keeps the heap invariant. *)
Theorem replace_keeps_order item h :
  agrees h → heap_ordered h → heap_ordered (replace item h).2.
Proof.
  intros Hag Hord. apply (ordered_exec (Replace item)); [done|]. cbn [exec].
  apply replace_ordered. by apply heap_ordered_from.
Qed.

(** X6.  With such a relation, [pushpop] keeps the heap invariant. *)
Theorem pushpop_keeps_order item h :
  agrees h → heap_ordered h → heap_ordered (pushpop item h).2.
Proof.
  intros Hag Hord. apply (ordered_exec (Pushpop item)); [done|]. cbn [exec].
  apply pushpop_ordered. by apply heap_ordered_from.
Qed.

Lemma check_invariant_Return h :
  heap_ordered h → check_invariant h = (Return tt, h).
Proof.
  intros Hord. apply check_invariant_iff in Hord.
  pose proof (check_invariant_state h) as Hst.
  destruct (check_invariant h) as [r h']. by simplify_eq/=.
Qed.

Lemma drain_sorted n acc h :
  length (elems h) ≤ n → agrees h → heap_ordered h →
  StronglySorted (λ x y, le x y = true) acc →
  (∀ a y, a ∈ acc → y ∈ elems h → le a y = true) →
  ∃ out h', drain n acc h = (Return out, h') ∧ elems h' = []
    ∧ out ≡ₚ acc ++ elems h ∧ StronglySorted (λ x y, le x y = true) out.
Proof.
  revert acc h. induction n as [|n IH]; intros acc h Hn Hag Hord Hacc Hcross.
  { assert (elems h = []) as Hnil by (apply nil_length_inv; lia).
    exists acc, h. rewrite Hnil, app_nil_r. by repeat split. }
  cbn [drain]. unfold bind at 1. unfold len.
  destruct (Nat.eqb_spec (length (elems h)) 0) as [H0|H0].
  { assert (elems h = []) as Hnil by by apply nil_length_inv.
    exists acc, h. rewrite Hnil, app_nil_r. by repeat split. }
  unfold bind at 1. rewrite (check_invariant_Return h Hord).
  destruct (lookup_lt_is_Some_2 (elems h) 0) as [top Htop]; [lia|].
  destruct (pop_Return 0 top h Htop) as (h' & Hpop & Hperm & Hcmp).
  unfold bind. rewrite Hpop.
  assert (elems h ≡ₚ top :: elems h') as Hall.
  { rewrite Hperm. by apply delete_Permutation. }
  destruct (IH (acc ++ [top]) h') as (out & h'' & -> & Hnil & Hout & Hsorted).
  - apply Permutation_length in Hall. cbn in Hall. lia.
  - intros x y. by rewrite Hcmp.
  - replace h' with (exec (Pop 0) h) by (cbn [exec]; by rewrite Hpop).
    apply ordered_exec; [done|]. cbn [exec].
    apply pop_top_ordered. by apply heap_ordered_from.
  - apply StronglySorted_app. split; [|split; [done|repeat constructor]].
    intros a b Ha ->%list_elem_of_singleton. apply Hcross; [done|].
    by eapply list_elem_of_lookup_2.
  - intros a y [Ha| ->%list_elem_of_singleton]%elem_of_app Hy.
    + apply Hcross; [done|]. rewrite Hall. by right.
    + assert (y ∈ elems h) as [i Hi]%list_elem_of_lookup
        by (rewrite Hall; by right).
      apply (root_least (elems h) top) with i; [|done..].
      by apply heap_ordered_from.
  - exists out, h''. split; [done|]. split; [done|]. split; [|done].
    rewrite Hout, Hall, <-app_assoc. done.
Qed.

(** X7.  With such a relation, the loop
    [while heap: heap.check_invariant(); sort.append(heap.pop())] run on a
    heap that satisfies the invariant raises nothing, empties the heap and
    collects its items in ascending order. *)
Theorem sorted_items_sorted h :
  agrees h → heap_ordered h →
  ∃ out h', sorted_items h = (Return out, h') ∧ elems h' = []
    ∧ out ≡ₚ elems h ∧ StronglySorted (λ x y, le x y = true) out.
Proof.
  intros Hag Hord. unfold sorted_items, bind, len.
  destruct (drain_sorted (length (elems h)) [] h)
    as (out & h' & Hrun & Hnil & Hperm & Hsorted); try done.
  - constructor.
  - intros a y Ha. by apply elem_of_nil in Ha.
  - by exists out, h'.
Qed.

End order.



(** ** What the repairs and [pop] do to the index *)

Lemma hole_index_move L ix0 v pos j y h :
  hole_index L ix0 v pos h → pos < length (elems h) → j ≠ pos →
  elems h !! j = Some y → hole_index L ix0 v j (set_slot pos y h).
Proof.
  intros (Hperm & Hmono & Hother) Hpos Hj Hy. split; [|split].
  - by apply hole_perm_move.
  - intros x Hx. cbn [set_slot _indexes]. apply lookup_insert_is_Some'.
    right. by apply Hmono.
  - intros x Hx. cbn [set_slot _indexes]. rewrite lookup_insert_ne; [by apply Hother|].
    intros ->. apply Hx. rewrite <-Hperm.
    apply (list_elem_of_lookup_2 _ j). by rewrite list_lookup_insert_ne.
Qed.

Lemma hole_index_fill L ix0 v pos h :
  hole_index L ix0 v pos h → pos < length (elems h) →
  hole_index L ix0 v pos (set_slot pos v h).
Proof.
  intros (Hperm & Hmono & Hother) Hpos. split; [|split].
  - by apply hole_perm_fill.
  - intros x Hx. cbn [set_slot _indexes]. apply lookup_insert_is_Some'.
    right. by apply Hmono.
  - intros x Hx. cbn [set_slot _indexes]. rewrite lookup_insert_ne; [by apply Hother|].
    intros ->. apply Hx. rewrite <-Hperm. by apply list_elem_of_insert.
Qed.

Lemma hole_index_open v pos h :
  elems h !! pos = Some v → hole_index (elems h) (_indexes h) v pos h.
Proof. intros Hv. split; [by rewrite list_insert_id|done]. Qed.

(** What a repair that ends by writing [v] in slot [pos'] leaves. *)
Lemma hole_index_close v pos pos' h h' :
  elems h !! pos = Some v →
  hole_index (elems h) (_indexes h) v pos' h' → pos' < length (elems h') →
  let h'' := set_slot pos' v h' in
  elems h'' ≡ₚ elems h
  ∧ (∀ x, is_Some (_indexes h !! x) → is_Some (_indexes h'' !! x))
  ∧ (∀ x, x ∉ elems h → _indexes h'' !! x = _indexes h !! x)
  ∧ elems h'' !! pos' = Some v ∧ _indexes h'' !! v = Some pos'.
Proof.
  intros Hv HI Hpos'.
  destruct (hole_index_fill _ _ _ _ _ HI Hpos') as (Hperm & Hmono & Hother).
  cbn [set_slot elems _indexes] in *. rewrite list_insert_insert_eq in Hperm.
  split; [done|]. split; [done|]. split; [done|].
  split; [by apply list_lookup_insert_eq|by apply lookup_insert_eq].
Qed.

Lemma _siftdown_index startpos pos h :
  pos < length (elems h) →
  ∃ h', _siftdown startpos pos h = (Return tt, h')
    ∧ elems h' ≡ₚ elems h
    ∧ (∀ x, is_Some (_indexes h !! x) → is_Some (_indexes h' !! x))
    ∧ (∀ x, x ∉ elems h → _indexes h' !! x = _indexes h !! x).
Proof.
  intros Hpos. destruct (lookup_lt_is_Some_2 _ _ Hpos) as [v Hv].
  destruct (_siftdown_hole v (hole_index (elems h) (_indexes h) v)
              (hole_index_move _ _ v) startpos pos h Hv)
    as (pos' & h' & -> & HI & Hpos' & _); [by apply hole_index_open|].
  destruct (hole_index_close v pos pos' h h' Hv HI Hpos') as (? & ? & ? & _).
  eauto.
Qed.

Lemma _siftup_index pos h :
  pos < length (elems h) →
  ∃ h', _siftup pos h = (Return tt, h')
    ∧ elems h' ≡ₚ elems h
    ∧ (∀ x, is_Some (_indexes h !! x) → is_Some (_indexes h' !! x))
    ∧ (∀ x, x ∉ elems h → _indexes h' !! x = _indexes h !! x).
Proof.
  intros Hpos. destruct (lookup_lt_is_Some_2 _ _ Hpos) as [v Hv].
  destruct (_siftup_hole v (hole_index (elems h) (_indexes h) v)
              (hole_index_move _ _ v) (hole_index_fill _ _ v) pos h Hv)
    as (pos' & h' & -> & HI & Hpos' & _); [by apply hole_index_open|].
  destruct (hole_index_close v pos pos' h h' Hv HI Hpos') as (? & ? & ? & _).
  eauto.
Qed.

(** The same for the repair that [pop] picks. *)
Lemma pop_repair_index (down : bool) index (x : Item) h :
  index < length (elems h) →
  ∃ h', ((if down then _siftup index else _siftdown 0 index);; ret x) h
        = (Return x, h')
    ∧ elems h' ≡ₚ elems h
    ∧ (∀ y, is_Some (_indexes h !! y) → is_Some (_indexes h' !! y))
    ∧ (∀ y, y ∉ elems h → _indexes h' !! y = _indexes h !! y).
Proof.
  intros Hin. unfold bind. destruct down.
  - destruct (_siftup_index index h Hin) as (h' & -> & ?). by exists h'.
  - destruct (_siftdown_index 0 index h Hin) as (h' & -> & ?). by exists h'.
Qed.

(** [pop] deletes no key of the index. *)
Lemma pop_keeps_keys x index h :
  is_Some (_indexes h !! x) → is_Some (_indexes (pop index h).2 !! x).
Proof.
  intros Hx. destruct (elems h !! index) as [x0|] eqn:Hx0; cycle 1.
  { apply lookup_ge_None in Hx0. by rewrite (proj2 (pop_beyond index h Hx0)). }
  destruct (last (elems h)) as [lastelt|] eqn:Hlast; cycle 1.
  { apply last_None in Hlast. by rewrite Hlast in Hx0. }
  apply last_Some in Hlast as [l Hl].
  pose proof (lookup_lt_Some _ _ _ Hx0) as Hin. rewrite Hl in Hin, Hx0.
  rewrite length_app in Hin. cbn in Hin.
  destruct (decide (index = length l)) as [->|Hne].
  { by rewrite (pop_last lastelt l h Hl). }
  rewrite lookup_app_l in Hx0 by lia.
  destruct (pop_unfold index x0 lastelt l h Hl Hx0) as (down & _ & ->).
  set (h2 := set_slot index lastelt (mkHeap l (cmp h) (_indexes h))).
  destruct (pop_repair_index down index x0 h2) as (h' & -> & _ & Hmono & _).
  { unfold h2. rewrite length_set_slot. cbn. lia. }
  apply Hmono. unfold h2. cbn [set_slot _indexes].
  apply lookup_insert_is_Some'. by right.
Qed.

(** [pop] leaves alone the entry of an item that is in no slot but,
    possibly, the one it vacates. *)
Lemma pop_untouched x index h :
  (∀ j, elems h !! j = Some x → j = index) →
  _indexes (pop index h).2 !! x = _indexes h !! x.
Proof.
  intros Honly. destruct (elems h !! index) as [x0|] eqn:Hx0; cycle 1.
  { apply lookup_ge_None in Hx0. by rewrite (proj2 (pop_beyond index h Hx0)). }
  destruct (last (elems h)) as [lastelt|] eqn:Hlast; cycle 1.
  { apply last_None in Hlast. by rewrite Hlast in Hx0. }
  apply last_Some in Hlast as [l Hl].
  pose proof (lookup_lt_Some _ _ _ Hx0) as Hin. rewrite Hl in Hin, Hx0.
  rewrite length_app in Hin. cbn in Hin.
  destruct (decide (index = length l)) as [->|Hne].
  { by rewrite (pop_last lastelt l h Hl). }
  rewrite lookup_app_l in Hx0 by lia.
  destruct (pop_unfold index x0 lastelt l h Hl Hx0) as (down & _ & ->).
  set (h2 := set_slot index lastelt (mkHeap l (cmp h) (_indexes h))).
  destruct (pop_repair_index down index x0 h2) as (h' & -> & _ & _ & Hother).
  { unfold h2. rewrite length_set_slot. cbn. lia. }
  assert (lastelt ≠ x) as Hlast.
  { intros ->. apply Hne. symmetry. apply Honly. rewrite Hl.
    by apply list_lookup_middle. }
  cbn [snd]. rewrite Hother.
  - unfold h2. cbn [set_slot _indexes]. by rewrite lookup_insert_ne.
  - unfold h2. cbn [set_slot elems].
    intros (j & Hj)%list_elem_of_lookup.
    destruct (decide (j = index)) as [->|Hji].
    + rewrite list_lookup_insert_eq in Hj by lia. congruence.
    + rewrite list_lookup_insert_ne in Hj by done. apply Hji, Honly.
      rewrite Hl. by apply lookup_app_l_Some.
Qed.

(** ** Properties of [pop], [remove] and [push] *)

(** X8.  [pop(index)] at a slot of the list returns the item of that slot
    and leaves the other items, one fewer. *)
Theorem pop_takes_slot index x h :
  elems h !! index = Some x →
  ∃ h', pop index h = (Return x, h')
        ∧ elems h' ≡ₚ delete index (elems h)
        ∧ S (length (elems h')) = length (elems h).
Proof.
  intros Hx. destruct (pop_Return index x h Hx) as (h' & Hpop & Hperm & _).
  exists h'. split; [done|]. split; [done|].
  rewrite Hperm, length_delete by eauto.
  apply lookup_lt_Some in Hx. lia.
Qed.

(** X9.  [pop(index)] with [index] beyond the last slot raises IndexError
    after the last item has been taken off the list: the list has lost its
    last item and the index is as before the call. *)
Theorem pop_beyond_end index h :
  length (elems h) ≤ index →
  (pop index h).1 = Raise IndexError
  ∧ elems (pop index h).2 = removelast (elems h)
  ∧ _indexes (pop index h).2 = _indexes h.
Proof.
  intros Hge. destruct (pop_beyond index h Hge) as [Hr Hs].
  split; [done|]. by rewrite Hs.
Qed.

(** X10.  [pop] leaves the key of the item it returns in the index: when
    the heap was in sync, the returned item is no longer in the list, and
    pushing it again raises RuntimeError and changes nothing. *)
Theorem popped_item_stays_key index x h h' :
  synced h → pop index h = (Return x, h') →
  (x ∉ elems h') ∧ push x h' = (Raise RuntimeError, h').
Proof.
  intros Hs Hpop. pose proof (pop_Return_inv _ _ _ _ Hpop) as Hx.
  destruct (pop_Return index x h Hx) as (h0 & Hpop0 & Hperm & _).
  assert (h0 = h') as -> by congruence. split.
  - rewrite Hperm. pose proof (synced_NoDup h Hs) as Hnd.
    rewrite (delete_Permutation _ _ _ Hx) in Hnd. by apply NoDup_cons in Hnd as [? _].
  - apply push_Raise. replace h' with (pop index h).2 by by rewrite Hpop.
    apply pop_keeps_keys. rewrite (Hs _ _ Hx). eauto.
Qed.

(** X11.  On a heap in sync, [remove(item)] of an item of the list returns
    that item, leaves the other items, deletes the key of the item from the
    index and keeps the heap in sync. *)
Theorem remove_takes_item item i h :
  synced h → elems h !! i = Some item →
  ∃ h', remove item h = (Return item, h')
        ∧ elems h' ≡ₚ delete i (elems h)
        ∧ (item ∉ elems h')
        ∧ _indexes h' !! item = None
        ∧ synced h'.
Proof.
  intros Hs Hitem. pose proof (Hs _ _ Hitem) as Hi.
  rewrite (remove_calls_pop item i h Hi).
  set (h1 := mkHeap (elems h) (cmp h) (delete item (_indexes h))).
  destruct (pop_Return i item h1 Hitem) as (h' & Hpop & Hperm & _).
  exists h'. split; [done|]. split; [done|]. split; [|split].
  - rewrite Hperm. pose proof (synced_NoDup h Hs) as Hnd.
    cbn [h1 elems]. rewrite (delete_Permutation _ _ _ Hitem) in Hnd.
    by apply NoDup_cons in Hnd as [? _].
  - replace h' with (pop i h1).2 by by rewrite Hpop.
    rewrite pop_untouched.
    + cbn [h1 _indexes]. apply lookup_delete_eq.
    + cbn [h1 elems]. intros j Hj. apply Hs in Hj. congruence.
  - replace h' with (remove item h).2.
    + by apply remove_synced.
    + rewrite (remove_calls_pop item i h Hi). fold h1. by rewrite Hpop.
Qed.

(** [pop] returns or raises IndexError. *)
Lemma pop_outcome index h :
  (∃ x, (pop index h).1 = Return x) ∨ (pop index h).1 = Raise IndexError.
Proof.
  destruct (elems h !! index) as [x|] eqn:Hx.
  - destruct (pop_Return index x h Hx) as (h' & -> & _). eauto.
  - apply lookup_ge_None in Hx. right. apply pop_beyond, Hx.
Qed.

(** X12.  [remove(item)] raises KeyError exactly when [item] is not a key
    of the index, and then it changes nothing. *)
Theorem remove_KeyError_iff item h :
  (remove item h).1 = Raise KeyError ↔ _indexes h !! item = None.
Proof.
  split; [|intros Hno; by rewrite remove_KeyError].
  destruct (_indexes h !! item) as [index|] eqn:Hi; [|done].
  rewrite (remove_calls_pop item index h Hi).
  by destruct (pop_outcome index
                 (mkHeap (elems h) (cmp h) (delete item (_indexes h))))
    as [[x ->] | ->].
Qed.

(** X13.  [push(item)] raises exactly when [item] is a key of the index:
    it then raises RuntimeError and changes nothing. *)
Theorem push_raises_iff item h :
  ((push item h).1 ≠ Return tt ↔ is_Some (_indexes h !! item))
  ∧ (is_Some (_indexes h !! item) → push item h = (Raise RuntimeError, h)).
Proof.
  split; [split|apply push_Raise].
  - intros Hr. destruct (_indexes h !! item) as [i|] eqn:Hi; [eauto|].
    destruct (push_Return item h Hi) as (h' & Hrun & _).
    by rewrite Hrun in Hr.
  - intros Hdup. by rewrite push_Raise.
Qed.

(** X14.  [push(item)] of an item that is not a key of the index returns;
    the list then holds [item] and the items it had, and the index sends
    [item] to the slot it is in. *)
Theorem push_adds_item item h :
  _indexes h !! item = None →
  ∃ h' i, push item h = (Return tt, h')
    ∧ elems h' ≡ₚ item :: elems h
    ∧ elems h' !! i = Some item ∧ _indexes h' !! item = Some i.
Proof.
  intros Hnew. unfold push, bind, indexes_mem, append, len.
  rewrite bool_decide_eq_false_2 by (rewrite Hnew; by intros [? ?]).
  cbn [elems cmp _indexes]. rewrite length_app, Nat.add_sub.
  set (h1 := mkHeap (elems h ++ [item]) (cmp h) (_indexes h)).
  assert (elems h1 !! length (elems h) = Some item) as Hv
    by by apply list_lookup_middle.
  destruct (_siftdown_hole item (hole_index (elems h1) (_indexes h1) item)
              (hole_index_move _ _ item) 0 (length (elems h)) h1 Hv)
    as (pos' & h' & -> & HI & Hpos' & _); [by apply hole_index_open|].
  destruct (hole_index_close item _ pos' h1 h' Hv HI Hpos')
    as (Hperm & _ & _ & Hslot & Hkey).
  eexists _, pos'. split; [done|]. split; [|done].
  rewrite Hperm. cbn [h1 elems]. by rewrite Permutation_app_comm.
Qed.

(** X15.  [pushpop(item)] raises nothing and neither loses nor adds an
    item: the item it returns and the items it leaves are [item] and the
    items the heap had. *)
Theorem pushpop_conserves item h :
  ∃ r h', pushpop item h = (Return r, h')
    ∧ r :: elems h' ≡ₚ item :: elems h.
Proof.
  unfold pushpop. unfold bind at 1. unfold len.
  destruct (Nat.eqb_spec (length (elems h)) 0) as [|Hlen]; [by exists item, h|].
  destruct (lookup_lt_is_Some_2 (elems h) 0) as [top Htop]; [lia|].
  unfold bind at 1. rewrite (getitem_Some _ _ _ Htop).
  unfold bind at 1. unfold call_cmp.
  destruct (cmp h top item); [|by exists item, h].
  destruct (replace_Return item top h Htop) as (h' & Hrun & Hperm & _).
  unfold replace, bind in Hrun. rewrite (getitem_Some _ _ _ Htop) in Hrun.
  unfold bind. destruct (__setitem__ 0 item h) as [[[]|e] h1]; [|done].
  destruct (_siftup 0 h1) as [[[]|e] h2]; [|done].
  unfold ret in *. exists top, h2. split; [done|].
  assert (h2 = h') as -> by congruence. rewrite Hperm, Permutation_swap.
  destruct (elems h) as [|t l]; [done|]. cbn in *. by simplify_eq.
Qed.

(** X16.  [replace(item)] on a heap that is not empty returns the old top
    and leaves [item] with the items that were below the top. *)
Theorem replace_returns_top item top h :
  elems h !! 0 = Some top →
  ∃ h', replace item h = (Return top, h')
        ∧ top :: elems h' ≡ₚ item :: elems h
        ∧ length (elems h') = length (elems h).
Proof.
  intros Htop. destruct (replace_Return item top h Htop)
    as (h' & Hrun & Hperm & Hl & _).
  exists h'. split; [done|]. split; [|done].
  rewrite Hperm, Permutation_swap.
  destruct (elems h) as [|t l]; [done|]. cbn in *. by simplify_eq.
Qed.

(** X18.  [check_invariant] returns exactly when the heap invariant holds,
    raises otherwise, and changes nothing. *)
Theorem check_invariant_decides h :
  (check_invariant h = (Return tt, h) ∧ heap_ordered h)
  ∨ (check_invariant h = (Raise InvariantError, h) ∧ ¬ heap_ordered h).
Proof.
  unfold check_invariant, bind, len.
  destruct (check_loop_spec (length (elems h) - 1) h) as [[-> Hord]|[-> Hbad]];
    [done|left|right]; (split; [done|]).
  - intros k x Hk Hx. apply Hord; [|done]. apply lookup_lt_Some in Hx. lia.
  - intros Hord. apply Hbad. intros k x Hk. apply Hord. lia.
Qed.

(** ** Rebuilding the index *)

Lemma enumerate_indexes_Some index l m x p :
  enumerate_indexes index l m !! x = Some p ↔
    (∃ q, p = index + q ∧ l !! q = Some x ∧ ∀ q', q < q' → l !! q' ≠ Some x)
    ∨ ((x ∉ l) ∧ m !! x = Some p).
Proof.
  revert index m. induction l as [|a l IH]; intros index m.
  { cbn. split; [intros Hm; right; split; [apply not_elem_of_nil|done]|].
    by intros [(q & _ & Hq & _)|[_ Hm]]. }
  cbn [enumerate_indexes]. rewrite IH. split.
  - intros [(q & -> & Hq & Hlast)|[Hx Hm]].
    + left. exists (S q). split; [lia|]. split; [done|].
      intros [|q'] Hq'; [lia|]. apply Hlast. lia.
    + destruct (decide (a = x)) as [->|Hne].
      * rewrite lookup_insert_eq in Hm. injection Hm as <-.
        left. exists 0. split; [lia|]. split; [done|].
        intros [|q'] Hq' Hq; [lia|]. apply Hx. by eapply list_elem_of_lookup_2.
      * rewrite lookup_insert_ne in Hm by done. right. split; [|done].
        by apply not_elem_of_cons.
  - intros [(q & -> & Hq & Hlast)|[Hx Hm]].
    + destruct q as [|q].
      * cbn in Hq. injection Hq as ->. right. split.
        -- intros (q' & Hq')%list_elem_of_lookup. by apply (Hlast (S q')); [lia|].
        -- rewrite lookup_insert_eq. f_equal. lia.
      * left. exists q. split; [lia|]. split; [done|].
        intros q' Hq'. apply (Hlast (S q')). lia.
    + apply not_elem_of_cons in Hx as [Hxa Hxl]. right. split; [done|].
      by rewrite lookup_insert_ne.
Qed.

(** The rebuilt index sends an item to the last slot that holds it, and
    has no other key. *)
Lemma rebuilt_index (l : list Item) x p :
  enumerate_indexes 0 l ∅ !! x = Some p ↔
    l !! p = Some x ∧ ∀ q, p < q → l !! q ≠ Some x.
Proof.
  rewrite enumerate_indexes_Some. split.
  - intros [(q & -> & Hq & Hlast)|[_ Hm]]; [done|by rewrite lookup_empty in Hm].
  - intros [Hp Hlast]. left. by exists p.
Qed.

Lemma rebuilt_index_keys (l : list Item) x :
  is_Some (enumerate_indexes 0 l ∅ !! x) ↔ x ∈ l.
Proof.
  split.
  - intros [p Hp]. apply rebuilt_index in Hp as [Hp _].
    by eapply list_elem_of_lookup_2.
  - intros Hx. destruct (enumerate_indexes 0 l ∅ !! x) as [p|] eqn:Hp; [eauto|].
    exfalso. revert Hp.
    assert (∀ index m, enumerate_indexes index l m !! x ≠ None) as Hne;
      [|apply Hne].
    clear -Hx. induction l as [|a l IH]; intros index m;
      [by apply elem_of_nil in Hx|].
    cbn. destruct (decide (x ∈ l)) as [Hl|Hl]; [by apply IH|].
    apply elem_of_cons in Hx as [->|Hx]; [|done].
    rewrite enumerate_indexes_other by done. by rewrite lookup_insert_eq.
Qed.

(** X19.  Slice assignment raises nothing and rebuilds the index from the
    new list: afterwards the index sends an item to a slot exactly when
    that is the last slot of the list that holds the item. *)
Theorem setslice_rebuilds_index i j sequence h :
  let h' := (__setslice__ i j sequence h).2 in
  (__setslice__ i j sequence h).1 = Return tt
  ∧ ∀ x p, _indexes h' !! x = Some p ↔
      elems h' !! p = Some x ∧ ∀ q, p < q → elems h' !! q ≠ Some x.
Proof. intros h'. split; [done|]. intros x p. apply rebuilt_index. Qed.

Lemma keys_in_list_step h h' :
  keys_in_list h → elems h' ≡ₚ elems h →
  (∀ x, x ∉ elems h → _indexes h' !! x = _indexes h !! x) →
  keys_in_list h'.
Proof.
  intros Hk Hperm Hother x Hx. rewrite Hperm.
  destruct (decide (x ∈ elems h)) as [|Hno]; [done|].
  apply Hk. by rewrite <-Hother.
Qed.

(** X17.  The constructor raises nothing, whatever the items: the heap it
    returns holds the given items, has the given relation, and the keys of
    its index are the given items. *)
Theorem init_returns iterable c :
  ∃ h, __init__ iterable c = (Return tt, h)
       ∧ elems h ≡ₚ iterable ∧ cmp h = c
       ∧ ∀ x, is_Some (_indexes h !! x) ↔ x ∈ iterable.
Proof.
  unfold __init__.
  destruct (heapify_Return (mkHeap iterable c ∅)) as (h' & _ & -> & Hp & Hc).
  eexists. split; [done|]. split; [done|]. split; [done|].
  intros x. cbn [elems _indexes]. apply rebuilt_index_keys.
Qed.

(** In a heap in sync without stale keys the index is exact, and
    conversely. *)
Lemma exact_index h : synced h → keys_in_list h → exact h.
Proof.
  intros Hs Hk x i. split; [|apply Hs].
  intros Hi.
  assert (x ∈ elems h) as (j & Hj)%list_elem_of_lookup by (apply Hk; eauto).
  pose proof (Hs _ _ Hj). congruence.
Qed.

Lemma exact_synced h : exact h → synced h.
Proof. intros He i x. apply He. Qed.

Lemma exact_keys_in_list h : exact h → keys_in_list h.
Proof.
  intros He x [i Hi]. apply He in Hi. by eapply list_elem_of_lookup_2.
Qed.

(** The index rebuilt from a list of distinct items is exact for that
    list. *)
Lemma rebuilt_index_exact (l : list Item) c :
  NoDup l → exact (mkHeap l c (enumerate_indexes 0 l ∅)).
Proof.
  intros Hnd x i. cbn [elems _indexes]. rewrite rebuilt_index.
  split; [by intros [? _]|]. intros Hi. split; [done|].
  intros q Hq Hx. pose proof (NoDup_lookup _ _ _ _ Hnd Hi Hx). lia.
Qed.

(** A heap built from distinct items that [heapify] did not have to move
    has an exact index. *)
Lemma new_heap_exact iterable c :
  NoDup iterable → elems (new_heap iterable c) = iterable →
  exact (new_heap iterable c).
Proof.
  intros Hnd Hsame x i. rewrite indexes_new_heap, Hsame.
  apply (rebuilt_index_exact iterable c Hnd).
Qed.

(** X20.  [heapify()] raises nothing and keeps the items.  It rebuilds the
    index from the list as it is before [heapq.heapify] rearranges it, and
    the rearrangement does not touch the index: afterwards the index sends
    an item to a slot exactly when that was the last slot that held the
    item before the call. *)
Theorem heapify_rebuilds_index h :
  ∃ h', heapify h = (Return tt, h')
        ∧ elems h' ≡ₚ elems h
        ∧ ∀ x p, _indexes h' !! x = Some p ↔
            elems h !! p = Some x ∧ ∀ q, p < q → elems h !! q ≠ Some x.
Proof.
  destruct (heapify_Return h) as (h' & _ & -> & Hp & _).
  eexists. split; [done|]. split; [done|].
  intros x p. cbn [_indexes]. apply rebuilt_index.
Qed.

(** ** Heaps changed by [push] and [remove] only *)

Lemma push_keys_in_list item h :
  keys_in_list h → keys_in_list (push item h).2.
Proof.
  intros Hk. unfold push, bind, indexes_mem, append, len.
  case_bool_decide as Hdup; [done|]. cbn [elems cmp _indexes].
  rewrite length_app, Nat.add_sub.
  set (h1 := mkHeap (elems h ++ [item]) (cmp h) (_indexes h)).
  destruct (_siftdown_index 0 (length (elems h)) h1)
    as (h' & -> & Hperm & _ & Hother).
  { cbn [h1 elems]. rewrite length_app. cbn. lia. }
  apply (keys_in_list_step h1); [|done..].
  intros x Hx. cbn [h1 elems]. apply elem_of_app. left. by apply Hk.
Qed.

Lemma remove_keys_in_list item h :
  synced h → keys_in_list h → keys_in_list (remove item h).2.
Proof.
  intros Hs Hk. destruct (_indexes h !! item) as [index|] eqn:Hi; cycle 1.
  { by rewrite remove_KeyError. }
  rewrite (remove_calls_pop item index h Hi).
  set (h1 := mkHeap (elems h) (cmp h) (delete item (_indexes h))).
  assert (elems h !! index = Some item) as Hitem
    by by apply (exact_index h Hs Hk).
  assert (∀ x, is_Some (_indexes h1 !! x) →
            ∃ j, j ≠ index ∧ elems h !! j = Some x) as Hk1.
  { intros x [j Hx]. cbn [h1 _indexes] in Hx.
    apply lookup_delete_Some in Hx as [Hne Hx].
    apply (exact_index h Hs Hk) in Hx. exists j. split; [|done].
    intros ->. congruence. }
  destruct (last (elems h)) as [lastelt|] eqn:Hlast; cycle 1.
  { apply last_None in Hlast. by rewrite Hlast in Hitem. }
  apply last_Some in Hlast as [l Hl].
  pose proof (lookup_lt_Some _ _ _ Hitem) as Hin. rewrite Hl in Hin.
  rewrite length_app in Hin. cbn in Hin.
  destruct (decide (index = length l)) as [->|Hne].
  - rewrite (pop_last lastelt l h1 Hl). intros x Hx. cbn [elems _indexes] in *.
    destruct (Hk1 x Hx) as (j & Hj & Hjx). rewrite Hl in Hjx.
    pose proof (lookup_lt_Some _ _ _ Hjx) as Hjl. rewrite length_app in Hjl.
    cbn in Hjl. rewrite lookup_app_l in Hjx by lia.
    by eapply list_elem_of_lookup_2.
  - assert (l !! index = Some item) as Hitem'.
    { rewrite Hl in Hitem. by rewrite lookup_app_l in Hitem by lia. }
    destruct (pop_unfold index item lastelt l h1 Hl Hitem') as (down & _ & ->).
    set (h2 := set_slot index lastelt (mkHeap l (cmp h1) (_indexes h1))).
    destruct (pop_repair_index down index item h2)
      as (h' & -> & Hperm & _ & Hother).
    { unfold h2. rewrite length_set_slot. cbn. lia. }
    apply (keys_in_list_step h2); [|done..].
    intros x Hx. unfold h2 in *. cbn [set_slot elems _indexes] in *.
    apply lookup_insert_is_Some' in Hx as [<-|Hx].
    + apply list_elem_of_insert. lia.
    + destruct (Hk1 x Hx) as (j & Hj & Hjx). rewrite Hl in Hjx.
      destruct (decide (j = length l)) as [->|Hjl].
      * rewrite list_lookup_middle in Hjx by done. injection Hjx as <-.
        apply list_elem_of_insert. lia.
      * pose proof (lookup_lt_Some _ _ _ Hjx) as Hjlt.
        rewrite length_app in Hjlt. cbn in Hjlt.
        rewrite lookup_app_l in Hjx by lia.
        apply (list_elem_of_lookup_2 _ j). by rewrite list_lookup_insert_ne.
Qed.

(** X21.  [push] and [remove] keep an exact index exact.  In a heap whose
    index is exact, [push(item)] raises RuntimeError exactly when [item] is
    in the heap, [remove(item)] raises KeyError exactly when it is not, and
    either failure changes nothing. *)
Theorem push_remove_exact k h :
  exact h → push_or_remove k h →
  exact (exec k h)
  ∧ ∀ item,
      (push item h = (Raise RuntimeError, h) ↔ item ∈ elems h)
      ∧ (remove item h = (Raise KeyError, h) ↔ item ∉ elems h).
Proof.
  intros He Hok. pose proof (exact_synced h He) as Hs.
  pose proof (exact_keys_in_list h He) as Hk. split.
  { destruct k as [item|index|item|item|item]; cbn [exec] in *; try done.
    - apply exact_index; [by apply push_synced|by apply push_keys_in_list].
    - apply exact_index; [by apply remove_synced|by apply remove_keys_in_list]. }
  assert (∀ item, is_Some (_indexes h !! item) ↔ item ∈ elems h) as Hkey.
  { intros item. split; [apply Hk|].
    intros (i & Hi)%list_elem_of_lookup. apply Hs in Hi. eauto. }
  intros item. split; split.
  - intros Hr. apply Hkey.
    destruct (_indexes h !! item) as [i|] eqn:Hi; [eauto|].
    destruct (push_Return item h Hi) as (h' & Hrun & _). congruence.
  - intros Hin. by apply push_Raise, Hkey.
  - intros Hr Hin. apply Hkey in Hin as [i Hi].
    rewrite (remove_calls_pop item i h Hi) in Hr.
    destruct (pop_outcome i (mkHeap (elems h) (cmp h) (delete item (_indexes h))))
      as [[x Hx] | Hx]; rewrite Hr in Hx; done.
  - intros Hno. apply remove_KeyError.
    destruct (_indexes h !! item) as [i|] eqn:Hi; [|done].
    destruct Hno. apply Hkey. eauto.
Qed.

(** X23.  Each call leaves a heap in sync in sync, whether it returns or
    raises: [push], [pop] and [remove] always, [replace] and [pushpop] when
    no slot below the top already holds the item they are given. *)
Theorem calls_keep_sync k h : fresh k h → synced h → synced (exec k h).
Proof.
  intros Hok Hs. destruct k as [item|index|item|item|item]; cbn [exec fresh] in *.
  - by apply push_synced.
  - by apply pop_synced.
  - by apply remove_synced.
  - by apply replace_synced.
  - by apply pushpop_synced.
Qed.

Lemma cmp_new_heap iterable c : cmp (new_heap iterable c) = c.
Proof.
  unfold new_heap. by destruct (init_Return iterable c) as (h & -> & _ & Hc).
Qed.

End XHeap.








(** * Heaps of integers *)

Local Open Scope Z_scope.

(** ** Where the code leaves the heap order *)

(** C1.  [Heap([1, 10, 2, 11, 12, 3, 4])] satisfies [check_invariant];
    after [remove(11)], which returns 11, the list is
    [1, 10, 2, 4, 12, 3] and [check_invariant] raises: slot 3 holds 4 under
    its parent 10. *)
Theorem remove_breaks_invariant :
  let h := new_heap Z.ltb [1; 10; 2; 11; 12; 3; 4] le_cmp in
  let r := remove Z.ltb 11 h in
  elems h = [1; 10; 2; 11; 12; 3; 4]
  ∧ (check_invariant h).1 = Return tt ∧ heap_ordered h
  ∧ r.1 = Return 11
  ∧ elems r.2 = [1; 10; 2; 4; 12; 3]
  ∧ (check_invariant r.2).1 = Raise InvariantError ∧ ¬ heap_ordered r.2.
Proof.
  intros h r.
  assert ((check_invariant h).1 = Return tt) as Hok
    by (vm_compute; reflexivity).
  assert ((check_invariant r.2).1 = Raise InvariantError) as Hbad
    by by vm_compute.
  pose proof (proj1 (check_invariant_iff h) Hok) as Hord.
  pose proof (raised_not_ordered r.2 Hbad) as Hnot.
  split; [vm_compute; reflexivity|]. split; [exact Hok|].
  split; [exact Hord|]. split; [vm_compute; reflexivity|].
  split; [vm_compute; reflexivity|]. split; [exact Hbad|exact Hnot].
Qed.

(** C3.  In the heap [1, 10, 2, 11, 12, 5, 6, 13, 14, 15, 16, 7, 8],
    [pop(5)] moves the last item 8 into slot 5.  The former parent of the
    slot is slot [(5-1)/2 = 2], holding 2, which precedes 8, but the code
    reads slot [(5-1) >> 2 = 1], holding 10, which does not: it bubbles 8
    up, 8 stays in slot 5 above its child 7 in slot 11, and
    [check_invariant] raises. *)
Theorem pop_reads_wrong_parent :
  let h := new_heap Z.ltb [1; 10; 2; 11; 12; 5; 6; 13; 14; 15; 16; 7; 8] le_cmp in
  let r := pop Z.ltb 5 h in
  elems h = [1; 10; 2; 11; 12; 5; 6; 13; 14; 15; 16; 7; 8]
  ∧ (check_invariant h).1 = Return tt
  ∧ elems h !! ((5 - 1) / 2)%nat = Some 2 ∧ cmp h 2 8 = true
  ∧ elems h !! Nat.shiftr (5 - 1) 2 = Some 10 ∧ cmp h 10 8 = false
  ∧ r.1 = Return 5
  ∧ elems r.2 = [1; 10; 2; 11; 12; 8; 6; 13; 14; 15; 16; 7]
  ∧ (check_invariant r.2).1 = Raise InvariantError ∧ ¬ heap_ordered r.2.
Proof.
  intros h r.
  assert ((check_invariant r.2).1 = Raise InvariantError) as Hbad
    by by vm_compute.
  pose proof (raised_not_ordered r.2 Hbad) as Hnot.
  do 8 (split; [vm_compute; reflexivity|]). split; [exact Hbad|exact Hnot].
Qed.

(** C4.  [Heap([3, 1, 2], cmp=lambda x, y: x >= y)]: the input is in heap
    order for the relation, construction returns the list [1, 3, 2]
    ordered by the built-in [<], and [check_invariant] raises. *)
Theorem heapify_ignores_cmp :
  let r := __init__ Z.ltb [3; 1; 2] ge_cmp in
  (check_invariant (mkHeap [3; 1; 2] ge_cmp ∅)).1 = Return tt
  ∧ r.1 = Return tt
  ∧ elems r.2 = [1; 3; 2]
  ∧ (check_invariant r.2).1 = Raise InvariantError ∧ ¬ heap_ordered r.2.
Proof.
  intros r.
  assert ((check_invariant r.2).1 = Raise InvariantError) as Hbad
    by by vm_compute.
  pose proof (raised_not_ordered r.2 Hbad) as Hnot.
  do 3 (split; [vm_compute; reflexivity|]). split; [exact Hbad|exact Hnot].
Qed.

(** C6.  [Heap([3, 1, 2], cmp=lambda x, y: x >= y).pop()] returns 1 while
    3 and 2 remain, and 1 is not at least as good as either under the
    relation. *)
Theorem pop_order_ignores_cmp :
  let h := new_heap Z.ltb [3; 1; 2] ge_cmp in
  let r := pop Z.ltb 0 h in
  r.1 = Return 1
  ∧ elems r.2 = [2; 3]
  ∧ cmp h 1 2 = false ∧ cmp h 1 3 = false.
Proof. vm_compute. done. Qed.

(** ** Where the index keeps an item that left the heap *)

(** C5.  [pop()] on [Heap([1, 2])] returns 1 and leaves the list [2], but
    the index still has the key 1; [push(1)] then raises although 1 is not
    in the heap, and changes nothing. *)
Theorem push_after_pop_raises :
  let h := (pop Z.ltb 0 (new_heap Z.ltb [1; 2] le_cmp)).2 in
  (pop Z.ltb 0 (new_heap Z.ltb [1; 2] le_cmp)).1 = Return 1
  ∧ elems h = [2]
  ∧ _indexes h !! 1 = Some 0%nat
  ∧ push Z.ltb 1 h = (Raise RuntimeError, h).
Proof.
  intros h. split; [by vm_compute|]. split; [by vm_compute|].
  split; [by vm_compute|].
  apply push_Raise. exists 0%nat. by vm_compute.
Qed.

(** C8.  [pop()] on [Heap([1, 2, 3])] returns 1 and leaves [2, 3];
    [remove(1)] then raises nothing: it returns 2 and leaves [3]. *)
Theorem remove_after_pop_takes_other :
  let h := (pop Z.ltb 0 (new_heap Z.ltb [1; 2; 3] le_cmp)).2 in
  let r := remove Z.ltb 1 h in
  (pop Z.ltb 0 (new_heap Z.ltb [1; 2; 3] le_cmp)).1 = Return 1
  ∧ elems h = [2; 3]
  ∧ r.1 = Return 2
  ∧ elems r.2 = [3].
Proof. vm_compute. done. Qed.

(** C9.  [Heap([1, 1])] raises nothing: it returns the heap [1, 1], whose
    index has the single entry [1 -> 1]. *)
Theorem init_accepts_duplicates :
  let r := __init__ Z.ltb [1; 1] le_cmp in
  r.1 = Return tt
  ∧ elems r.2 = [1; 1]
  ∧ map_to_list (_indexes r.2) = [(1, 1%nat)].
Proof. vm_compute. done. Qed.

(** ** Where construction leaves the index behind *)

(** C2.  [Heap([5, 3, 8, 1, 9, 2])]: [heapq.heapify] arranges the list as
    [1, 3, 2, 5, 9, 8], but the index is the one built from the input
    order: it sends 1, now in slot 0, to slot 3.  The heap is out of sync
    right after construction; [remove(8)] then pops slot 2, returns 2 and
    leaves 8 in the list. *)
Theorem construction_breaks_sync :
  let h := new_heap Z.ltb [5; 3; 8; 1; 9; 2] le_cmp in
  let r := remove Z.ltb 8 h in
  elems h = [1; 3; 2; 5; 9; 8]
  ∧ _indexes h !! 1 = Some 3%nat
  ∧ _indexes h !! 8 = Some 2%nat
  ∧ ¬ synced h
  ∧ r.1 = Return 2
  ∧ elems r.2 = [1; 3; 8; 5; 9].
Proof.
  intros h r.
  assert (elems h !! 0%nat = Some 1) as Htop by (vm_compute; reflexivity).
  assert (_indexes h !! 1 = Some 3%nat) as Hkey by (vm_compute; reflexivity).
  split; [vm_compute; reflexivity|]. split; [exact Hkey|].
  split; [vm_compute; reflexivity|]. split.
  { intros Hs. specialize (Hs 0%nat 1 Htop). congruence. }
  split; vm_compute; reflexivity.
Qed.

(** ** Ties *)

(** C7, as stated, fails: in [Heap([2], cmp=lambda x, y: x // 2 <= y // 2)]
    the item 3 is at least as good as the top 2, and [pushpop(3)] returns 2
    and leaves the list [3]. *)
Lemma pushpop_swaps_on_tie :
  ¬ (∀ (h : Heap) (item : Z),
       elems h = [] ∨ (∃ top, elems h !! 0%nat = Some top ∧ cmp h item top = true) →
       pushpop Z.ltb item h = (Return item, h)).
Proof.
  intros Hall.
  specialize (Hall (new_heap Z.ltb [2] half_cmp) 3).
  assert (pushpop Z.ltb 3 (new_heap Z.ltb [2] half_cmp)
          = (Return 3, new_heap Z.ltb [2] half_cmp)) as Heq.
  { apply Hall. right. exists 2. by vm_compute. }
  apply (f_equal fst) in Heq. vm_compute in Heq. discriminate.
Qed.

Lemma pushpop_keeps_witness :
  let h := new_heap Z.ltb [5; 3; 8] le_cmp in
  (elems h = [] ∨ (∃ top, elems h !! 0%nat = Some top ∧ cmp h top 1 = false))
  ∧ pushpop Z.ltb 1 h = (Return 1, h).
Proof.
  intros h.
  assert (elems h = [] ∨ (∃ top, elems h !! 0%nat = Some top ∧ cmp h top 1 = false))
    as Hpre.
  { right. exists 3. split; vm_compute; reflexivity. }
  split; [exact Hpre|]. exact (pushpop_keeps Z.ltb 1 h Hpre).
Defined.

Lemma replace_duplicates_witness :
  let h := new_heap Z.ltb [1; 2; 3] le_cmp in
  (0 < 1)%nat ∧ elems h !! 1%nat = Some 2
  ∧ ∃ top h', replace Z.ltb 2 h = (Return top, h')
      ∧ elems h !! 0%nat = Some top
      ∧ elems h' ≡ₚ 2 :: tail (elems h)
      ∧ ∃ i j, i ≠ j ∧ elems h' !! i = Some 2 ∧ elems h' !! j = Some 2.
Proof.
  intros h.
  assert (elems h !! 1%nat = Some 2) as Hitem by (vm_compute; reflexivity).
  split; [lia|]. split; [exact Hitem|].
  exact (replace_duplicates Z.ltb 2 h 1 ltac:(lia) Hitem).
Defined.

(** ** The heap of the module's sanity test

    [Heap([1, 3, 5, 7, 9, 2, 4, 6, 8, 0])] with the default relation, and
    the built-in order of the integers.  Construction arranges its list as
    [0, 1, 2, 6, 3, 5, 4, 7, 8, 9]; a heap built from that list is not
    rearranged, so its index is exact. *)

Lemma Z_ltb_weak_order : weak_order Z.ltb.
Proof.
  split.
  - intros x y Hxy. apply Z.ltb_lt in Hxy. apply Z.ltb_ge. lia.
  - unfold le. intros x y z Hxy Hyz.
    apply negb_true_iff, Z.ltb_ge in Hxy, Hyz. apply negb_true_iff, Z.ltb_ge. lia.
Qed.

Lemma le_cmp_le x y : le_cmp x y = le Z.ltb x y.
Proof.
  unfold le_cmp, le. destruct (Z.leb_spec x y), (Z.ltb_spec y x); [lia|done..|lia].
Qed.

Lemma new_heap_agrees iterable : agrees Z.ltb (new_heap Z.ltb iterable le_cmp).
Proof. intros x y. rewrite cmp_new_heap. apply le_cmp_le. Qed.

Lemma arranged_heap_exact :
  exact (new_heap Z.ltb [0; 1; 2; 6; 3; 5; 4; 7; 8; 9] le_cmp).
Proof.
  apply new_heap_exact.
  - apply (bool_decide_unpack _). vm_compute. exact I.
  - vm_compute. reflexivity.
Qed.

Lemma init_heap_ordered_witness :
  weak_order Z.ltb
  ∧ (∀ x y, le_cmp x y = le Z.ltb x y)
  ∧ ∃ h, __init__ Z.ltb [1; 3; 5; 7; 9; 2; 4; 6; 8; 0] le_cmp = (Return tt, h)
         ∧ elems h ≡ₚ [1; 3; 5; 7; 9; 2; 4; 6; 8; 0] ∧ heap_ordered h.
Proof.
  split; [exact Z_ltb_weak_order|]. split; [exact le_cmp_le|].
  exact (init_heap_ordered Z.ltb Z_ltb_weak_order _ le_cmp le_cmp_le).
Defined.

Lemma push_keeps_order_witness :
  let h := new_heap Z.ltb [1; 3; 5; 7; 9; 2; 4; 6; 8; 0] le_cmp in
  weak_order Z.ltb ∧ agrees Z.ltb h ∧ heap_ordered h
  ∧ heap_ordered (push Z.ltb (-1) h).2.
Proof.
  intros h.
  assert (heap_ordered h) as Hord
    by (apply check_invariant_iff; vm_compute; reflexivity).
  split; [exact Z_ltb_weak_order|]. split; [apply new_heap_agrees|].
  split; [exact Hord|].
  exact (push_keeps_order Z.ltb Z_ltb_weak_order (-1) h
           (new_heap_agrees _) Hord).
Defined.

Lemma pop_keeps_order_witness :
  let h := new_heap Z.ltb [1; 3; 5; 7; 9; 2; 4; 6; 8; 0] le_cmp in
  weak_order Z.ltb ∧ agrees Z.ltb h ∧ heap_ordered h
  ∧ (0 = 0 ∨ length (elems h) ≤ 1)%nat
  ∧ heap_ordered (pop Z.ltb 0 h).2.
Proof.
  intros h.
  assert (heap_ordered h) as Hord
    by (apply check_invariant_iff; vm_compute; reflexivity).
  split; [exact Z_ltb_weak_order|]. split; [apply new_heap_agrees|].
  split; [exact Hord|]. split; [left; reflexivity|].
  exact (pop_keeps_order Z.ltb Z_ltb_weak_order 0 h
           (new_heap_agrees _) Hord (or_introl eq_refl)).
Defined.

Lemma pop_top_least_witness :
  let h := new_heap Z.ltb [1; 3; 5; 7; 9; 2; 4; 6; 8; 0] le_cmp in
  let h' := (pop Z.ltb 0 h).2 in
  weak_order Z.ltb ∧ agrees Z.ltb h ∧ heap_ordered h
  ∧ pop Z.ltb 0 h = (Return 0, h')
  ∧ ∀ y, y ∈ elems h' → cmp h 0 y = true.
Proof.
  intros h h'.
  assert (heap_ordered h) as Hord
    by (apply check_invariant_iff; vm_compute; reflexivity).
  assert (pop Z.ltb 0 h = (Return 0, h')) as Hpop by (vm_compute; reflexivity).
  split; [exact Z_ltb_weak_order|]. split; [apply new_heap_agrees|].
  split; [exact Hord|]. split; [exact Hpop|].
  exact (pop_top_least Z.ltb Z_ltb_weak_order 0 h h'
           (new_heap_agrees _) Hord Hpop).
Defined.

Lemma replace_keeps_order_witness :
  let h := new_heap Z.ltb [1; 3; 5; 7; 9; 2; 4; 6; 8; 0] le_cmp in
  weak_order Z.ltb ∧ agrees Z.ltb h ∧ heap_ordered h
  ∧ heap_ordered (replace Z.ltb 10 h).2.
Proof.
  intros h.
  assert (heap_ordered h) as Hord
    by (apply check_invariant_iff; vm_compute; reflexivity).
  split; [exact Z_ltb_weak_order|]. split; [apply new_heap_agrees|].
  split; [exact Hord|].
  exact (replace_keeps_order Z.ltb Z_ltb_weak_order 10 h
           (new_heap_agrees _) Hord).
Defined.

Lemma pushpop_keeps_order_witness :
  let h := new_heap Z.ltb [1; 3; 5; 7; 9; 2; 4; 6; 8; 0] le_cmp in
  weak_order Z.ltb ∧ agrees Z.ltb h ∧ heap_ordered h
  ∧ heap_ordered (pushpop Z.ltb 10 h).2.
Proof.
  intros h.
  assert (heap_ordered h) as Hord
    by (apply check_invariant_iff; vm_compute; reflexivity).
  split; [exact Z_ltb_weak_order|]. split; [apply new_heap_agrees|].
  split; [exact Hord|].
  exact (pushpop_keeps_order Z.ltb Z_ltb_weak_order 10 h
           (new_heap_agrees _) Hord).
Defined.

Lemma sorted_items_sorted_witness :
  let h := new_heap Z.ltb [1; 3; 5; 7; 9; 2; 4; 6; 8; 0] le_cmp in
  weak_order Z.ltb ∧ agrees Z.ltb h ∧ heap_ordered h
  ∧ ∃ out h', sorted_items Z.ltb h = (Return out, h') ∧ elems h' = []
      ∧ out ≡ₚ elems h
      ∧ StronglySorted (λ x y, le Z.ltb x y = true) out.
Proof.
  intros h.
  assert (heap_ordered h) as Hord
    by (apply check_invariant_iff; vm_compute; reflexivity).
  split; [exact Z_ltb_weak_order|]. split; [apply new_heap_agrees|].
  split; [exact Hord|].
  exact (sorted_items_sorted Z.ltb Z_ltb_weak_order h (new_heap_agrees _) Hord).
Defined.

Lemma pop_takes_slot_witness :
  let h := new_heap Z.ltb [1; 3; 5; 7; 9; 2; 4; 6; 8; 0] le_cmp in
  elems h !! 2%nat = Some 2
  ∧ ∃ h', pop Z.ltb 2 h = (Return 2, h')
          ∧ elems h' ≡ₚ delete 2%nat (elems h)
          ∧ S (length (elems h')) = length (elems h).
Proof.
  intros h.
  assert (elems h !! 2%nat = Some 2) as Hx by (vm_compute; reflexivity).
  split; [exact Hx|]. exact (pop_takes_slot Z.ltb 2 2 h Hx).
Defined.

Lemma pop_beyond_end_witness :
  let h := new_heap Z.ltb [1; 3; 5; 7; 9; 2; 4; 6; 8; 0] le_cmp in
  (length (elems h) ≤ 10)%nat
  ∧ (pop Z.ltb 10 h).1 = Raise IndexError
  ∧ elems (pop Z.ltb 10 h).2 = removelast (elems h)
  ∧ _indexes (pop Z.ltb 10 h).2 = _indexes h.
Proof.
  intros h.
  assert (length (elems h) ≤ 10)%nat as Hge by (vm_compute; lia).
  split; [exact Hge|]. exact (pop_beyond_end Z.ltb 10 h Hge).
Defined.

Lemma popped_item_stays_key_witness :
  let h := new_heap Z.ltb [0; 1; 2; 6; 3; 5; 4; 7; 8; 9] le_cmp in
  let h' := (pop Z.ltb 0 h).2 in
  synced h ∧ pop Z.ltb 0 h = (Return 0, h')
  ∧ (0 ∉ elems h') ∧ push Z.ltb 0 h' = (Raise RuntimeError, h').
Proof.
  intros h h'.
  assert (synced h) as Hs by exact (exact_synced h arranged_heap_exact).
  assert (pop Z.ltb 0 h = (Return 0, h')) as Hpop by (vm_compute; reflexivity).
  split; [exact Hs|]. split; [exact Hpop|].
  exact (popped_item_stays_key Z.ltb 0 0 h h' Hs Hpop).
Defined.

Lemma remove_takes_item_witness :
  let h := new_heap Z.ltb [0; 1; 2; 6; 3; 5; 4; 7; 8; 9] le_cmp in
  synced h ∧ elems h !! 2%nat = Some 2
  ∧ ∃ h', remove Z.ltb 2 h = (Return 2, h')
          ∧ elems h' ≡ₚ delete 2%nat (elems h)
          ∧ (2 ∉ elems h')
          ∧ _indexes h' !! 2 = None
          ∧ synced h'.
Proof.
  intros h.
  assert (synced h) as Hs by exact (exact_synced h arranged_heap_exact).
  assert (elems h !! 2%nat = Some 2) as Hx by (vm_compute; reflexivity).
  split; [exact Hs|]. split; [exact Hx|].
  exact (remove_takes_item Z.ltb 2 2 h Hs Hx).
Defined.

Lemma push_adds_item_witness :
  let h := new_heap Z.ltb [1; 3; 5; 7; 9; 2; 4; 6; 8; 0] le_cmp in
  _indexes h !! 10 = None
  ∧ ∃ h' i, push Z.ltb 10 h = (Return tt, h')
      ∧ elems h' ≡ₚ 10 :: elems h
      ∧ elems h' !! i = Some 10 ∧ _indexes h' !! 10 = Some i.
Proof.
  intros h.
  assert (_indexes h !! 10 = None) as Hnew by (vm_compute; reflexivity).
  split; [exact Hnew|]. exact (push_adds_item Z.ltb 10 h Hnew).
Defined.

Lemma replace_returns_top_witness :
  let h := new_heap Z.ltb [1; 3; 5; 7; 9; 2; 4; 6; 8; 0] le_cmp in
  elems h !! 0%nat = Some 0
  ∧ ∃ h', replace Z.ltb 10 h = (Return 0, h')
          ∧ 0 :: elems h' ≡ₚ 10 :: elems h
          ∧ length (elems h') = length (elems h).
Proof.
  intros h.
  assert (elems h !! 0%nat = Some 0) as Htop by (vm_compute; reflexivity).
  split; [exact Htop|]. exact (replace_returns_top Z.ltb 10 0 h Htop).
Defined.

Lemma push_remove_exact_witness :
  let h := new_heap Z.ltb [0; 1; 2; 6; 3; 5; 4; 7; 8; 9] le_cmp in
  exact h ∧ push_or_remove (Remove 6) h
  ∧ exact (exec Z.ltb (Remove 6) h)
  ∧ ∀ item,
      (push Z.ltb item h = (Raise RuntimeError, h) ↔ item ∈ elems h)
      ∧ (remove Z.ltb item h = (Raise KeyError, h) ↔ item ∉ elems h).
Proof.
  intros h. split; [exact arranged_heap_exact|]. split; [exact I|].
  exact (push_remove_exact Z.ltb (Remove 6) h arranged_heap_exact I).
Defined.

Lemma calls_keep_sync_witness :
  let h := new_heap Z.ltb [0; 1; 2; 6; 3; 5; 4; 7; 8; 9] le_cmp in
  fresh (Replace 10) h ∧ synced h ∧ synced (exec Z.ltb (Replace 10) h).
Proof.
  intros h.
  assert (fresh (Replace 10) h) as Hok.
  { cbn [fresh]. apply (bool_decide_unpack _). vm_compute. exact I. }
  assert (synced h) as Hs by exact (exact_synced h arranged_heap_exact).
  split; [exact Hok|]. split; [exact Hs|].
  exact (calls_keep_sync Z.ltb (Replace 10) h Hok Hs).
Defined.

Lemma remove_keeps_order_witness :
  let h := new_heap Z.ltb [1; 3; 5; 7; 9; 2; 4; 6; 8; 0] le_cmp in
  weak_order Z.ltb ∧ agrees Z.ltb h ∧ heap_ordered h
  ∧ (∀ index, _indexes h !! 0 = Some index →
       index = 0%nat ∨ (length (elems h) ≤ S index)%nat)
  ∧ heap_ordered (remove Z.ltb 0 h).2.
Proof.
  intros h.
  assert (heap_ordered h) as Hord
    by (apply check_invariant_iff; vm_compute; reflexivity).
  assert (∀ index, _indexes h !! 0 = Some index →
            index = 0%nat ∨ (length (elems h) ≤ S index)%nat) as Hindex.
  { intros index Hi. right. vm_compute in Hi.
    assert (index = 9%nat) as -> by congruence.
    apply Nat.leb_le. vm_compute. reflexivity. }
  split; [exact Z_ltb_weak_order|]. split; [apply new_heap_agrees|].
  split; [exact Hord|]. split; [exact Hindex|].
  exact (remove_keeps_order Z.ltb Z_ltb_weak_order 0 h
           (new_heap_agrees _) Hord Hindex).
Defined.
